(** * vagrantutil: a shallow embedding of the vagrant driver

    The Go package drives the external [vagrant] binary.  This file embeds

    - the machine-readable output parser ([parseData], [toStatus]) of
      vagrant.go;
    - the session operations of vagrant.go ([NewVagrant], [Version], [Box],
      [Status], [Up], [Destroy]) as state-passing functions over a world
      holding the files written and the subprocesses spawned;
    - the command executor of command.go: [done] and [run] as functions,
      [start] as an interleaving transition system of its three goroutines.

    What the operating system, the Go runtime and the vagrant binary answer
    is read from an explicit environment record. *)

From stdpp Require Import base strings list gmap.

Local Open Scope string_scope.
Local Open Scope nat_scope.
Local Open Scope list_scope.

(** ** Errors

    A Go [error] value; [nil] is [None] of [option error].  The three
    constructors separate what [os.IsNotExist] tells apart from the errors
    the package builds itself. *)
Inductive error : Type :=
  | ErrNotExist (path : string)     (* a *PathError for which os.IsNotExist holds *)
  | ErrSystem (msg : string)        (* any other error of the OS or of a library *)
  | ErrorString (msg : string).     (* errors.New / fmt.Errorf *)

Definition Error (e : error) : string :=
  match e with
  | ErrNotExist path => "stat " +:+ path +:+ ": no such file or directory"
  | ErrSystem msg => msg
  | ErrorString msg => msg
  end.

Definition os_IsNotExist (e : option error) : bool :=
  match e with
  | Some (ErrNotExist _) => true
  | _ => false
  end.

Global Instance error_eq_dec : EqDecision error.
Proof. solve_decision. Defined.

(** ** Enumerations of vagrant.go *)
Inductive BoxSubcommand : Type :=
  | Add | List | Outdated | Remove | Repackage | Update.

(** The [String] method the stringer tool generates for [BoxSubcommand]. *)
Definition BoxSubcommand_String (c : BoxSubcommand) : string :=
  match c with
  | Add => "Add"
  | List => "List"
  | Outdated => "Outdated"
  | Remove => "Remove"
  | Repackage => "Repackage"
  | Update => "Update"
  end.

Inductive Status : Type :=
  | Unknown | NotCreated | Running | Saved | PowerOff.

Global Instance Status_eq_dec : EqDecision Status.
Proof. solve_decision. Defined.

(** [CommandOutput]: one event of the streaming channel. *)
Record CommandOutput : Type := mkOutput {
  Line : string;
  Err : option error
}.

Global Instance CommandOutput_eq_dec : EqDecision CommandOutput.
Proof. solve_decision. Defined.

(** ** The parser of the machine-readable output *)

(** One iteration of the loop of [parseData]: [data] is the loop variable. *)
Definition parseData_row (typeName : string) (data : string)
    (record : list string) : string :=
  if length record <? 4 then data
  else
    match record !! 2, record !! 3 with
    | Some ty, Some d => if String.eqb typeName ty then d else data
    | _, _ => data
    end.

Definition parseData_error (typeName : string) : error :=
  ErrorString ("couldn't parse data for vagrant type: '" +:+ typeName +:+ "'").

Definition parseData (records : list (list string)) (typeName : string)
    : string * option error :=
  let data := foldl (parseData_row typeName) "" records in
  if String.eqb data "" then ("", Some (parseData_error typeName))
  else (data, None).

(** [toStatus] of vagrant.go: a [switch] over the state string. *)
Definition toStatus (state : string) : Status * option error :=
  if String.eqb state "running" then (Running, None)
  else if String.eqb state "not_created" then (NotCreated, None)
  else if String.eqb state "saved" then (Saved, None)
  else if String.eqb state "poweroff" then (PowerOff, None)
  else (Unknown, Some (ErrorString ("Unknown state: " +:+ state))).

(** The earlier revision of [toStatus] (the unnamed first revision of
    vagrant.go): no error result and no [PowerOff]. *)
Definition toStatus_v0 (state : string) : Status :=
  if String.eqb state "running" then Running
  else if String.eqb state "not_created" then NotCreated
  else if String.eqb state "saved" then Saved
  else Unknown.

Definition known_states : list string :=
  ["running"; "not_created"; "saved"; "poweroff"].

(** The reading of the parser's contract: the rows that take part in the
    lookup, and the last of them. *)
Definition row_matches (typeName : string) (record : list string) : bool :=
  (4 <=? length record) && bool_decide (record !! 2 = Some typeName).

Definition last_match (records : list (list string)) (typeName : string)
    : option (list string) :=
  last (filter (λ r, row_matches typeName r = true) records).

Definition field (i : nat) (record : list string) : string :=
  default "" (record !! i).

(** ** The environment and the world

    [process] is what one execution of the vagrant binary does, as far as
    the package observes it through os/exec and bufio.  A scanner's yield
    is the lines [Scan] delivers followed by the value of [Err]. *)
Definition yield : Type := (list string * option error)%type.

Record process : Type := mkProcess {
  stdoutpipe_err : option error;   (* the error of cmd.StdoutPipe() *)
  stderrpipe_err : option error;   (* the error of cmd.StderrPipe() *)
  start_err : option error;        (* the error of cmd.Start() *)
  stdout_yield : yield;            (* bufio.NewScanner(stdoutPipe) *)
  stderr_yield : yield;            (* bufio.NewScanner(stderrPipe) *)
  merged_yield : yield;            (* bufio.NewScanner(io.MultiReader(stderrPipe, stdoutPipe)) *)
  stdout_text : string;            (* everything written to stdout *)
  combined : string;               (* stdout and stderr as CombinedOutput collects them *)
  wait_err : option error          (* the error of cmd.Wait(): nil on exit status 0 *)
}.

(** The answers of the Go libraries and of the operating system. *)
Record Env : Type := mkEnv {
  user_Current : string + error;               (* the home directory of user.Current() *)
  filepath_Join : string → string → string;
  strings_TrimSpace : string → string;
  csv_ReadAll : string → list (list string) * option error;
  mkdir_fault : string → option error;         (* why os.MkdirAll fails, if it does *)
  stat_fault : string → option string;         (* a failure of os.Stat other than absence *)
  write_fault : string → option error;         (* why ioutil.WriteFile fails, if it does *)
  exec_Command : string → list string → process  (* cmd.Dir and cmd.Args to behaviour *)
}.

(** A call of a completion callback of a [command]. *)
Inductive call : Type :=
  | CallSuccess
  | CallFailure (e : error).

Global Instance call_eq_dec : EqDecision call.
Proof. solve_decision. Defined.

(** What the package changes: files and directories on disk, subprocesses
    started (directory and argument vector), lines given to log.Printf and
    the calls of completion callbacks, each in order. *)
Record world : Type := mkWorld {
  files : gmap string string;
  dirs : gset string;
  spawned : list (string * list string);
  logged : list string;
  calls : list call
}.

Definition set_files (f : gmap string string) (w : world) : world :=
  mkWorld f (dirs w) (spawned w) (logged w) (calls w).
Definition set_dirs (d : gset string) (w : world) : world :=
  mkWorld (files w) d (spawned w) (logged w) (calls w).
Definition set_spawned (l : list (string * list string)) (w : world) : world :=
  mkWorld (files w) (dirs w) l (logged w) (calls w).
Definition set_logged (l : list string) (w : world) : world :=
  mkWorld (files w) (dirs w) (spawned w) l (calls w).
Definition set_calls (l : list call) (w : world) : world :=
  mkWorld (files w) (dirs w) (spawned w) (logged w) l.

Definition os_Stat (E : Env) (w : world) (path : string) : option error :=
  match stat_fault E path with
  | Some msg => Some (ErrSystem msg)
  | None =>
      if bool_decide (is_Some (files w !! path)) || bool_decide (path ∈ dirs w)
      then None
      else Some (ErrNotExist path)
  end.

Definition os_MkdirAll (E : Env) (path : string) (w : world)
    : world * option error :=
  match mkdir_fault E path with
  | Some e => (w, Some e)
  | None => (set_dirs ({[path]} ∪ dirs w) w, None)
  end.

Definition ioutil_WriteFile (E : Env) (path data : string) (w : world)
    : world * option error :=
  match write_fault E path with
  | Some e => (w, Some e)
  | None => (set_files (<[path := data]> (files w)) w, None)
  end.

Definition log_Printf (line : string) (w : world) : world :=
  set_logged (logged w ++ [line]) w.

(** An [*exec.Cmd]: the directory and the argument vector. *)
Record Cmd : Type := mkCmd {
  Dir : string;
  Args : list string
}.

Definition behaviour (E : Env) (c : Cmd) : process :=
  exec_Command E (Dir c) (Args c).

(** [cmd.Start()]: the subprocess exists from here on. *)
Definition Cmd_Start (E : Env) (c : Cmd) (w : world) : world * option error :=
  match start_err (behaviour E c) with
  | Some e => (w, Some e)
  | None => (set_spawned (spawned w ++ [(Dir c, Args c)]) w, None)
  end.

(** [cmd.CombinedOutput()]: start, collect both streams, wait. *)
Definition Cmd_CombinedOutput (E : Env) (c : Cmd) (w : world)
    : world * (string * option error) :=
  match Cmd_Start E c w with
  | (w', Some e) => (w', ("", Some e))
  | (w', None) => (w', (combined (behaviour E c), wait_err (behaviour E c)))
  end.

(** ** The session of vagrant.go *)
Record Vagrant : Type := mkVagrant {
  VagrantfilePath : string
}.

Definition NewVagrant (E : Env) (name : string) (w : world)
    : world * (option Vagrant * option error) :=
  match user_Current E with
  | inr err => (w, (None, Some err))
  | inl home =>
      let err : option error := None in
      if String.eqb name "" then (w, (None, err))
      else
        let vagrantHome :=
          filepath_Join E (filepath_Join E home ".koding-boxes") name in
        match os_MkdirAll E vagrantHome w with
        | (w', Some e) => (w', (None, Some e))
        | (w', None) => (w', (Some (mkVagrant vagrantHome), None))
        end
  end.

Definition vagrantfile (E : Env) (v : Vagrant) : string :=
  filepath_Join E (VagrantfilePath v) "Vagrantfile".

Definition vagrantfileExists (E : Env) (v : Vagrant) (w : world) : option error :=
  let err := os_Stat E w (vagrantfile E v) in
  if os_IsNotExist err then err else None.

Definition createCommand (v : Vagrant) (args : list string) : Cmd :=
  mkCmd (VagrantfilePath v) ("vagrant" :: args).

Definition runCommand (E : Env) (v : Vagrant) (args : list string) (w : world)
    : world * (string * option error) :=
  let args := args ++ ["--machine-readable"] in
  let cmd := mkCmd (VagrantfilePath v) ("vagrant" :: args) in
  match Cmd_CombinedOutput E cmd w with
  | (w', (_, Some e)) => (w', ("", Some e))
  | (w', (out, None)) => (w', (out, None))
  end.

Definition parseRecords (E : Env) (out : string)
    : list (list string) * option error :=
  csv_ReadAll E out.

Definition Version (E : Env) (v : Vagrant) (w : world)
    : world * (string * option error) :=
  match runCommand E v ["version"] w with
  | (w', (_, Some e)) => (w', ("", Some e))
  | (w', (out, None)) =>
      match parseRecords E out with
      | (_, Some e) => (w', ("", Some e))
      | (records, None) =>
          match parseData records "version-installed" with
          | (_, Some e) => (w', ("", Some e))
          | (versionInstalled, None) => (w', (versionInstalled, None))
          end
      end
  end.

Definition Box (E : Env) (v : Vagrant) (subcommand : BoxSubcommand) (w : world)
    : world * (string * option error) :=
  match runCommand E v ["box"; BoxSubcommand_String subcommand] w with
  | (w', (_, Some e)) => (w', ("", Some e))
  | (w', (out, None)) => (w', (strings_TrimSpace E out, None))
  end.

Definition Vagrant_Status (E : Env) (v : Vagrant) (w : world)
    : world * (Status * option error) :=
  match vagrantfileExists E v w with
  | Some e => (w, (Unknown, Some e))
  | None =>
      match runCommand E v ["status"] w with
      | (w', (_, Some e)) => (w', (Unknown, Some e))
      | (w', (out, None)) =>
          match parseRecords E out with
          | (_, Some e) => (w', (Unknown, Some e))
          | (records, None) =>
              match parseData records "state" with
              | (_, Some e) => (w', (Unknown, Some e))
              | (status, None) => (w', toStatus status)
              end
          end
      end
  end.

(** The goroutine of [Up]: one scanner over stderr followed by stdout, then
    [cmd.Wait()], then [close(out)].  The result is everything the channel
    delivers before it is closed. *)
Definition error_event (e : error) : CommandOutput := mkOutput "" (Some e).
Definition line_event (l : string) : CommandOutput := mkOutput l None.

Definition Up_feed (p : process) : list CommandOutput :=
  map line_event (fst (merged_yield p))
  ++ match snd (merged_yield p) with
     | Some e => [error_event e]
     | None => []
     end
  ++ match wait_err p with
     | Some e => [error_event e]
     | None => []
     end.

(** [Up] of vagrant.go.  The channel it returns is given by the events the
    channel delivers. *)
Definition Up (E : Env) (v : Vagrant) (vagrantfile_content : string) (w : world)
    : world * (option (list CommandOutput) * option error) :=
  if String.eqb vagrantfile_content ""
  then (w, (None, Some (ErrorString "Vagrantfile content is empty")))
  else
    let prepared :=
      match vagrantfileExists E v w with
      | Some _ => ioutil_WriteFile E (vagrantfile E v) vagrantfile_content w
      | None =>
          (log_Printf ("Using existing Vagrantfile at " +:+ VagrantfilePath v) w,
           None)
      end in
    match prepared with
    | (w1, Some e) => (w1, (None, Some e))
    | (w1, None) =>
        let cmd := createCommand v ["up"] in
        match stdoutpipe_err (behaviour E cmd) with
        | Some e => (w1, (None, Some e))
        | None =>
            match stderrpipe_err (behaviour E cmd) with
            | Some e => (w1, (None, Some e))
            | None =>
                match Cmd_Start E cmd w1 with
                | (w2, Some e) => (w2, (None, Some e))
                | (w2, None) => (w2, (Some (Up_feed (behaviour E cmd)), None))
                end
            end
        end
    end.

(** The goroutine of [Destroy] (and of the first revision of [Up]) only
    waits and logs a failure. *)
Definition wait_and_log (p : process) (w : world) : world :=
  match wait_err p with
  | Some e => log_Printf ("[error]: vagrant up error: " +:+ Error e) w
  | None => w
  end.

(** [Destroy] returns the stdout pipe: given here by the text read from it. *)
Definition Destroy (E : Env) (v : Vagrant) (w : world)
    : world * (option string * option error) :=
  match vagrantfileExists E v w with
  | Some e => (w, (None, Some e))
  | None =>
      let cmd := createCommand v ["destroy"; "--force"] in
      match stdoutpipe_err (behaviour E cmd) with
      | Some e => (w, (None, Some e))
      | None =>
          match Cmd_Start E cmd w with
          | (w', Some e) => (w', (None, Some e))
          | (w', None) =>
              (wait_and_log (behaviour E cmd) w',
               (Some (stdout_text (behaviour E cmd)), None))
          end
      end
  end.

(** [Up] of the first revision of vagrant.go: the same preparation of the
    Vagrantfile, then the stdout pipe is returned. *)
Definition Up_v0 (E : Env) (v : Vagrant) (vagrantfile_content : string) (w : world)
    : world * (option string * option error) :=
  if String.eqb vagrantfile_content ""
  then (w, (None, Some (ErrorString "Vagrantfile content is empty")))
  else
    let prepared :=
      match vagrantfileExists E v w with
      | Some _ => ioutil_WriteFile E (vagrantfile E v) vagrantfile_content w
      | None =>
          (log_Printf ("Using existing Vagrantfile at " +:+ VagrantfilePath v) w,
           None)
      end in
    match prepared with
    | (w1, Some e) => (w1, (None, Some e))
    | (w1, None) =>
        let cmd := createCommand v ["up"] in
        match stdoutpipe_err (behaviour E cmd) with
        | Some e => (w1, (None, Some e))
        | None =>
            match Cmd_Start E cmd w1 with
            | (w2, Some e) => (w2, (None, Some e))
            | (w2, None) =>
                (wait_and_log (behaviour E cmd) w2,
                 (Some (stdout_text (behaviour E cmd)), None))
            end
        end
    end.

(** ** The command executor of command.go

    [onSuccess] and [onFailure] tell whether the callback is set (not nil);
    calling a callback appends to [calls] of the world.  The logger of the
    command only prints, and is left out. *)
Record command : Type := mkCommand {
  cwd : string;
  onSuccess : bool;
  onFailure : bool
}.

(** [cmd.init(args)] sets [cmd.cmd]. *)
Definition init (c : command) (args : list string) : Cmd :=
  mkCmd (cwd c) ("vagrant" :: args).

Definition done (c : command) (err : option error) (w : world)
    : world * option error :=
  match err with
  | None =>
      (if onSuccess c then set_calls (calls w ++ [CallSuccess]) w else w, None)
  | Some e =>
      (if onFailure c then set_calls (calls w ++ [CallFailure e]) w else w,
       Some e)
  end.

(** [fmt.Errorf("%s: %s", err, out)] *)
Definition wrap_output (e : error) (out : string) : error :=
  ErrorString (Error e +:+ ": " +:+ out).

Definition run (E : Env) (c : command) (args : list string) (w : world)
    : world * (string * option error) :=
  let cmd := init c args in
  match Cmd_CombinedOutput E cmd w with
  | (w1, (out, Some e)) =>
      let err := if negb (String.length out =? 0) then wrap_output e out else e in
      let '(w2, r) := done c (Some err) w1 in
      (w2, ("", r))
  | (w1, (out, None)) =>
      let s := out in
      let '(w2, r) := done c None w1 in
      (w2, (s, r))
  end.

(** *** [start]: three goroutines and a channel

    The two [output] goroutines and the waiting goroutine are threads of a
    transition system.  A thread's position is the statement it executes
    next; a step is one statement with an effect on the WaitGroup, the
    channel, the subprocess or the callbacks, and the scheduler is free to
    pick any thread that can move.  The subprocess is taken to end: its
    streams are finite and [cmd.Wait()] returns.  The yield of each scanner
    is fixed by the process; that [cmd.Wait()], returning before a pipe has
    been read, closes the pipe is not followed, which matters only after
    the race recorded in [raced]. *)
Inductive stream : Type := Stdout | Stderr.

Global Instance stream_eq_dec : EqDecision stream.
Proof. solve_decision. Defined.

Inductive reader_pc : Type :=
  | RStart                                   (* before wg.Add(1) *)
  | RScan (todo : list string) (e : option error)
      (* in the loop; the scanner still yields [todo], then [e] *)
  | RExit.                                   (* after wg.Done() *)

Inductive waiter_pc : Type :=
  | WWait                                    (* at wg.Wait() *)
  | WReap                                    (* at cmd.cmd.Wait() *)
  | WSend (e : error)                        (* at out <- &CommandOutput{Error: err} *)
  | WClose (err : option error)              (* at close(out) *)
  | WDone (err : option error)               (* at cmd.done(err) *)
  | WExit.

(** Who sent an event: the consumer does not see it, the proofs do. *)
Inductive sender : Type :=
  | FromReader (i : stream)
  | FromWait.

Global Instance sender_eq_dec : EqDecision sender.
Proof. solve_decision. Defined.

Record gstate : Type := mkG {
  r_out : reader_pc;
  r_err : reader_pc;
  waiter : waiter_pc;
  wg : nat;                                  (* the counter of the WaitGroup *)
  closed : bool;                             (* close(out) has run *)
  received : list (sender * CommandOutput);  (* what the consumer got, in order *)
  reaped : bool;                             (* cmd.cmd.Wait() has returned *)
  panicked : bool;                           (* a goroutine panicked: the program is dead *)
  raced : bool;
      (* ghost: wg.Wait() returned while an output goroutine was unfinished *)
  gworld : world
}.

(** The consumer of the channel either receives until the channel is closed
    or stops for good after [n] events. *)
Inductive consumer : Type :=
  | Drain
  | Take (n : nat).

Definition ready (k : consumer) (s : gstate) : bool :=
  match k with
  | Drain => true
  | Take n => length (received s) <? n
  end.

Definition reader (i : stream) (s : gstate) : reader_pc :=
  match i with
  | Stdout => r_out s
  | Stderr => r_err s
  end.

Definition set_reader (i : stream) (pc : reader_pc) (s : gstate) : gstate :=
  match i with
  | Stdout => mkG pc (r_err s) (waiter s) (wg s) (closed s) (received s)
                  (reaped s) (panicked s) (raced s) (gworld s)
  | Stderr => mkG (r_out s) pc (waiter s) (wg s) (closed s) (received s)
                  (reaped s) (panicked s) (raced s) (gworld s)
  end.
Definition set_waiter (pc : waiter_pc) (s : gstate) : gstate :=
  mkG (r_out s) (r_err s) pc (wg s) (closed s) (received s)
      (reaped s) (panicked s) (raced s) (gworld s).
Definition set_wg (n : nat) (s : gstate) : gstate :=
  mkG (r_out s) (r_err s) (waiter s) n (closed s) (received s)
      (reaped s) (panicked s) (raced s) (gworld s).
Definition set_closed (s : gstate) : gstate :=
  mkG (r_out s) (r_err s) (waiter s) (wg s) true (received s)
      (reaped s) (panicked s) (raced s) (gworld s).
Definition push (from : sender) (ev : CommandOutput) (s : gstate) : gstate :=
  mkG (r_out s) (r_err s) (waiter s) (wg s) (closed s)
      (received s ++ [(from, ev)]) (reaped s) (panicked s) (raced s) (gworld s).
Definition set_reaped (s : gstate) : gstate :=
  mkG (r_out s) (r_err s) (waiter s) (wg s) (closed s) (received s)
      true (panicked s) (raced s) (gworld s).
Definition panic (s : gstate) : gstate :=
  mkG (r_out s) (r_err s) (waiter s) (wg s) (closed s) (received s)
      (reaped s) true (raced s) (gworld s).
Definition set_gworld (w : world) (s : gstate) : gstate :=
  mkG (r_out s) (r_err s) (waiter s) (wg s) (closed s) (received s)
      (reaped s) (panicked s) (raced s) w.
Definition set_raced (b : bool) (s : gstate) : gstate :=
  mkG (r_out s) (r_err s) (waiter s) (wg s) (closed s) (received s)
      (reaped s) (panicked s) b (gworld s).

(** [out <- ev] on the unbuffered channel: a send on a closed channel
    panics; otherwise it completes when the consumer receives, and the
    sender goes on as [next] says. *)
Definition send (k : consumer) (from : sender) (ev : CommandOutput)
    (next : gstate → gstate) (s : gstate) : option gstate :=
  if closed s then Some (panic s)
  else if ready k s then Some (next (push from ev s))
  else None.

(** [wg.Done()]: a negative counter panics. *)
Definition wg_Done (s : gstate) : gstate :=
  match wg s with
  | 0 => panic s
  | S n => set_wg n s
  end.

Definition yield_of (p : process) (i : stream) : yield :=
  match i with
  | Stdout => stdout_yield p
  | Stderr => stderr_yield p
  end.

(** One step of the goroutine [output(r)] run on stream [i]. *)
Definition reader_step (p : process) (k : consumer) (i : stream) (s : gstate)
    : option gstate :=
  match reader i s with
  | RStart =>
      Some (set_reader i (RScan (fst (yield_of p i)) (snd (yield_of p i)))
              (set_wg (S (wg s)) s))
  | RScan (l :: todo) e =>
      send k (FromReader i) (line_event l) (set_reader i (RScan todo e)) s
  | RScan [] (Some e) =>
      send k (FromReader i) (error_event e) (set_reader i (RScan [] None)) s
  | RScan [] None => Some (set_reader i RExit (wg_Done s))
  | RExit => None
  end.

Definition exited (pc : reader_pc) : bool :=
  match pc with
  | RExit => true
  | _ => false
  end.

(** One step of the third goroutine.  [wg.Wait()] returns when the counter
    is zero, whatever the output goroutines have done so far. *)
Definition waiter_step (c : command) (p : process) (k : consumer) (s : gstate)
    : option gstate :=
  match waiter s with
  | WWait =>
      if wg s =? 0
      then Some (set_raced (negb (exited (r_out s) && exited (r_err s)))
                   (set_waiter WReap s))
      else None
  | WReap =>
      Some (set_reaped
              (set_waiter
                 match wait_err p with
                 | Some e => WSend e
                 | None => WClose None
                 end s))
  | WSend e => send k FromWait (error_event e) (set_waiter (WClose (Some e))) s
  | WClose err => Some (set_closed (set_waiter (WDone err) s))
  | WDone err =>
      Some (set_gworld (fst (done c err (gworld s))) (set_waiter WExit s))
  | WExit => None
  end.

Inductive thread : Type :=
  | TReader (i : stream)
  | TWaiter.

(** The scheduler picks a thread; a panic stops every goroutine. *)
Definition gstep (c : command) (p : process) (k : consumer) (t : thread)
    (s : gstate) : option gstate :=
  if panicked s then None
  else
    match t with
    | TReader i => reader_step p k i s
    | TWaiter => waiter_step c p k s
    end.

Fixpoint run_schedule (c : command) (p : process) (k : consumer)
    (sched : list thread) (s : gstate) : option gstate :=
  match sched with
  | [] => Some s
  | t :: sched' =>
      match gstep c p k t s with
      | Some s' => run_schedule c p k sched' s'
      | None => None
      end
  end.

(** The state in which [start] leaves the goroutines it has created. *)
Definition start_state (w : world) : gstate :=
  mkG RStart RStart WWait 0 false [] false false false w.

(** [start]: on success the channel is returned and the goroutines run on
    from the state given in its place. *)
Definition start (E : Env) (c : command) (args : list string) (w : world)
    : world * (option gstate * option error) :=
  let cmd := init c args in
  match stdoutpipe_err (behaviour E cmd) with
  | Some e => let '(w1, r) := done c (Some e) w in (w1, (None, r))
  | None =>
      match stderrpipe_err (behaviour E cmd) with
      | Some e => let '(w1, r) := done c (Some e) w in (w1, (None, r))
      | None =>
          match Cmd_Start E cmd w with
          | (w1, Some e) => let '(w2, r) := done c (Some e) w1 in (w2, (None, r))
          | (w1, None) => (w1, (Some (start_state w1), None))
          end
      end
  end.

(** The states the goroutines of a started command can be in. *)
Inductive reachable (c : command) (p : process) (k : consumer) (w : world)
    : gstate → Prop :=
  | reach_start : reachable c p k w (start_state w)
  | reach_step s t s' :
      reachable c p k w s → gstep c p k t s = Some s' → reachable c p k w s'.

(** No goroutine can move. *)
Definition stuck (c : command) (p : process) (k : consumer) (s : gstate) : Prop :=
  ∀ t, gstep c p k t s = None.

(** ** Vocabulary of the properties *)

(** The events a scanner's yield turns into: a line event per line, then an
    error event when [Err] is not nil. *)
Definition events_of (y : yield) : list CommandOutput :=
  map line_event (fst y)
  ++ match snd y with
     | Some e => [error_event e]
     | None => []
     end.

Definition wait_events (p : process) : list CommandOutput :=
  match wait_err p with
  | Some e => [error_event e]
  | None => []
  end.

Definition sent_by (from : sender) (l : list (sender * CommandOutput))
    : list CommandOutput :=
  map snd (filter (λ x, fst x = from) l).

(** What the consumer holds: the events without their senders. *)
Definition seen (s : gstate) : list CommandOutput := map snd (received s).

Definition is_line (ev : CommandOutput) : bool :=
  match Err ev with
  | None => true
  | Some _ => false
  end.

Definition line_events (l : list CommandOutput) : list CommandOutput :=
  filter (λ ev, is_line ev = true) l.

Definition error_events (l : list CommandOutput) : list CommandOutput :=
  filter (λ ev, is_line ev = false) l.


(** The calls [done] makes for an error value. *)
Definition done_calls (c : command) (err : option error) : list call :=
  match err with
  | None => if onSuccess c then [CallSuccess] else []
  | Some e => if onFailure c then [CallFailure e] else []
  end.

(** A bound on the steps the goroutines can still take. *)
Definition reader_weight (y : yield) (pc : reader_pc) : nat :=
  match pc with
  | RStart => 2 * length (fst y) + 3
  | RScan todo e =>
      2 * length todo + match e with Some _ => 1 | None => 0 end + 1
  | RExit => 0
  end.

Definition waiter_weight (pc : waiter_pc) : nat :=
  match pc with
  | WWait => 5
  | WReap => 4
  | WSend _ => 3
  | WClose _ => 2
  | WDone _ => 1
  | WExit => 0
  end.

Definition weight (p : process) (s : gstate) : nat :=
  reader_weight (stdout_yield p) (r_out s)
  + reader_weight (stderr_yield p) (r_err s)
  + waiter_weight (waiter s)
  + (if panicked s then 0 else 1).

(** The streaming contract as the specification words it, for one command,
    process, consumer and initial world: when the channel is closed, every
    line of both streams has been delivered, each stream in its order. *)
Definition delivers_all_lines (c : command) (p : process) (k : consumer)
    (w : world) : Prop :=
  ∀ s, reachable c p k w s → closed s = true →
    length (line_events (seen s))
      = length (fst (stdout_yield p)) + length (fst (stderr_yield p))
    ∧ ∀ i, line_events (sent_by (FromReader i) (received s))
           = map line_event (fst (yield_of p i)).


(** The shape of the event sequence as the specification words it: line
    events, then at most one scan-error event, then at most one wait-error
    event. *)
Definition lines_then_errors (l : list CommandOutput) : Prop :=
  ∃ ls scan_err wait_error,
    l = map line_event ls
        ++ match scan_err with Some e => [error_event e] | None => [] end
        ++ match wait_error with Some e => [error_event e] | None => [] end.

(** The event contract as the specification words it: at closure the events
    have that shape, and no error event means the process succeeded. *)
Definition stream_contract (c : command) (p : process) (k : consumer)
    (w : world) : Prop :=
  ∀ s, reachable c p k w s → closed s = true →
    lines_then_errors (seen s)
    ∧ (error_events (seen s) = [] → wait_err p = None).

(** An operation insists on the Vagrantfile: without it the operation fails
    with a not-exist error and no subprocess has been started. *)
Definition requires_Vagrantfile {R : Type}
    (op : Env → Vagrant → world → world * (R * option error)) : Prop :=
  ∀ E v w, vagrantfileExists E v w ≠ None →
    os_IsNotExist (snd (snd (op E v w))) = true
    ∧ spawned (fst (op E v w)) = spawned w.

(** *** Invariants of the goroutines of [start] *)

Definition scanning (pc : reader_pc) : nat :=
  match pc with
  | RScan _ _ => 1
  | _ => 0
  end.

(** The events an output goroutine has still to send. *)
Definition remaining (p : process) (i : stream) (pc : reader_pc)
    : list CommandOutput :=
  match pc with
  | RStart => events_of (yield_of p i)
  | RScan todo e => events_of (todo, e)
  | RExit => []
  end.

(** What holds at each position of the waiting goroutine. *)
Definition waiter_inv (c : command) (p : process) (w : world) (s : gstate)
    : Prop :=
  match waiter s with
  | WWait | WReap =>
      reaped s = false ∧ closed s = false ∧ gworld s = w
      ∧ sent_by FromWait (received s) = []
  | WSend e =>
      wait_err p = Some e ∧ reaped s = true ∧ closed s = false
      ∧ gworld s = w ∧ sent_by FromWait (received s) = []
  | WClose err =>
      err = wait_err p ∧ reaped s = true ∧ closed s = false
      ∧ gworld s = w ∧ sent_by FromWait (received s) = wait_events p
  | WDone err =>
      err = wait_err p ∧ reaped s = true ∧ closed s = true
      ∧ gworld s = w ∧ sent_by FromWait (received s) = wait_events p
  | WExit =>
      reaped s = true ∧ closed s = true
      ∧ gworld s = fst (done c (wait_err p) w)
      ∧ sent_by FromWait (received s) = wait_events p
  end.

(** Every event of the waiting goroutine comes after every event of the
    output goroutines. *)
Definition wait_last (s : gstate) : Prop :=
  received s
  = filter (λ x, fst x ≠ FromWait) (received s)
    ++ map (pair FromWait) (sent_by FromWait (received s)).

Record inv (c : command) (p : process) (w : world) (s : gstate) : Prop := {
  inv_wg : wg s = scanning (r_out s) + scanning (r_err s);
  inv_streams : ∀ i,
    sent_by (FromReader i) (received s) ++ remaining p i (reader i s)
    = events_of (yield_of p i);
  inv_waiter : waiter_inv c p w s;
  inv_before_wait : waiter s = WWait → raced s = false;
  inv_barrier : raced s = false → waiter s ≠ WWait →
    r_out s = RExit ∧ r_err s = RExit;
  inv_no_panic : raced s = false → panicked s = false;
  inv_wait_last : raced s = false → wait_last s
}.

(** ** Concrete environments for the examples *)
Definition demo_process (out err : yield) (werr : option error) : process :=
  mkProcess None None None out err
    (fst err ++ fst out, snd out) "" "" werr.

Definition demo_env (p : process) : Env :=
  mkEnv (inl "/home/u") (λ a b, a +:+ "/" +:+ b) (λ x, x) (λ _, ([], None))
    (λ _, None) (λ _, None) (λ _, None) (λ _ _, p).

Definition empty_world : world := mkWorld ∅ ∅ [] [] [].

Definition demo_session : Vagrant := mkVagrant "/home/u/.koding-boxes/box".

Definition both_callbacks : command := mkCommand "/home/u/.koding-boxes/box" true true.

(** Processes of the examples: one line on stdout; a failure without
    output; a line on each stream; a line too long for the scanner of
    stdout and a line on stderr. *)
Definition one_line : process := demo_process (["a"], None) ([], None) None.

Definition silent_failure : process :=
  demo_process ([], None) ([], None) (Some (ErrSystem "exit status 1")).

Definition line_then_success : process :=
  demo_process (["a"], None) (["b"], None) None.

Definition long_line : process :=
  demo_process ([], Some (ErrSystem "bufio.Scanner: token too long"))
    (["x"], None) None.

(** ** Further definitions *)

(** [newCommand] of command.go: the callbacks start out nil.  (The logger
    it derives from [log] is left out with the rest of the logging.) *)
Definition newCommand (cwd : string) : command := mkCommand cwd false false.

(** The contract of a failing [run] as the specification words it: the
    string is empty, the message of the error ends with the combined
    output, and a callback has been called when [run] returns. *)
Definition run_failure_contract (E : Env) (c : command) (args : list string)
    (w : world) : Prop :=
  ∀ e, start_err (behaviour E (init c args)) = None →
       wait_err (behaviour E (init c args)) = Some e →
    fst (snd (run E c args w)) = ""
    ∧ (∃ err prefix, snd (snd (run E c args w)) = Some err
         ∧ Error err = prefix +:+ combined (behaviour E (init c args)))
    ∧ ∃ x, calls (fst (run E c args w)) = calls w ++ [x].

(** A process that prints "boom" and exits with status 1. *)
Definition boom : process :=
  mkProcess None None None ([], None) ([], None) ([], None)
    "" "boom" (Some (ErrSystem "exit status 1")).

(** The number of events a process gives rise to on the channel of
    [start]. *)
Definition total_events (p : process) : nat :=
  length (events_of (stdout_yield p)) + length (events_of (stderr_yield p))
  + length (wait_events p).





(** An environment in which [os.Stat] fails on every path for a reason
    other than absence. *)
Definition denied_env (p : process) : Env :=
  mkEnv (inl "/home/u") (λ a b, a +:+ "/" +:+ b) (λ x, x) (λ _, ([], None))
    (λ _, None) (λ _, Some "permission denied") (λ _, None) (λ _ _, p).

(** An environment whose CSV reader answers with a fixed table. *)
Definition table_env (p : process) (table : list (list string)) : Env :=
  mkEnv (inl "/home/u") (λ a b, a +:+ "/" +:+ b) (λ x, x) (λ _, (table, None))
    (λ _, None) (λ _, None) (λ _, None) (λ _ _, p).

(** * Theorems *)

(** ** The parser *)

Lemma parseData_row_matches typeName data record :
  parseData_row typeName data record
  = if row_matches typeName record then field 3 record else data.
Proof.
  unfold parseData_row, row_matches, field.
  destruct (length record <? 4) eqn:Hlen.
  - apply Nat.ltb_lt in Hlen.
    replace (4 <=? length record) with false; [done|].
    symmetry. apply Nat.leb_gt. lia.
  - apply Nat.ltb_ge in Hlen.
    replace (4 <=? length record) with true by (symmetry; apply Nat.leb_le; lia).
    destruct (lookup_lt_is_Some_2 record 2 ltac:(lia)) as [ty Hty].
    destruct (lookup_lt_is_Some_2 record 3 ltac:(lia)) as [d Hd].
    rewrite Hty, Hd. simpl.
    destruct (String.eqb_spec typeName ty) as [->|Hne].
    + by rewrite bool_decide_eq_true_2.
    + rewrite bool_decide_eq_false_2; [done|]. congruence.
Qed.

Lemma parseData_loop typeName records data :
  foldl (parseData_row typeName) data records
  = match last_match records typeName with
    | Some r => field 3 r
    | None => data
    end.
Proof.
  revert data. induction records as [|r records IH] using rev_ind; intros data.
  - done.
  - rewrite foldl_app. simpl. rewrite parseData_row_matches, IH.
    unfold last_match. rewrite filter_app.
    rewrite (filter_cons _ r), filter_nil.
    destruct (row_matches typeName r) eqn:Hm.
    + rewrite decide_True by done. by rewrite last_snoc.
    + rewrite decide_False by congruence. by rewrite app_nil_r.
Qed.

Lemma short_rows_never_match typeName records :
  last_match (filter (λ r, 4 ≤ length r) records) typeName
  = last_match records typeName.
Proof.
  unfold last_match. f_equal.
  induction records as [|r records IH]; [done|].
  rewrite !filter_cons.
  destruct (decide (4 ≤ length r)) as [Hlen|Hlen].
  - rewrite filter_cons. destruct (decide (row_matches typeName r = true));
      by rewrite IH.
  - rewrite IH. rewrite decide_False; [done|].
    unfold row_matches. intros Hm. apply andb_true_iff in Hm as [Hm _].
    apply Nat.leb_le in Hm. lia.
Qed.

(** C3. [parseData] goes through every row; rows of fewer than four fields
    take no part (dropping them changes nothing); among the other rows
    those whose field 2 is the name match, and the value is field 3 of the
    last match; the error is returned exactly when no row matched or that
    value is empty. *)
Theorem parseData_last_match_wins (records : list (list string))
    (typeName : string) :
  parseData (filter (λ r, 4 ≤ length r) records) typeName
    = parseData records typeName
  ∧ parseData records typeName
    = match last_match records typeName with
      | Some r =>
          if String.eqb (field 3 r) "" then ("", Some (parseData_error typeName))
          else (field 3 r, None)
      | None => ("", Some (parseData_error typeName))
      end
  ∧ (snd (parseData records typeName) ≠ None
     ↔ last_match records typeName = None
       ∨ ∃ r, last_match records typeName = Some r ∧ field 3 r = "").
Proof.
  assert (Hform : ∀ rs, parseData rs typeName
    = match last_match rs typeName with
      | Some r =>
          if String.eqb (field 3 r) "" then ("", Some (parseData_error typeName))
          else (field 3 r, None)
      | None => ("", Some (parseData_error typeName))
      end).
  { intros rs. unfold parseData. rewrite parseData_loop.
    by destruct (last_match rs typeName). }
  split; [|split].
  - by rewrite !Hform, short_rows_never_match.
  - apply Hform.
  - rewrite Hform. destruct (last_match records typeName) as [r|]; simpl.
    + destruct (String.eqb_spec (field 3 r) "") as [He|Hne]; simpl.
      * split; [intros _; right; eauto | done].
      * split; [done|]. intros [?|(r' & [= <-] & ?)]; done.
    + split; [by left | done].
Qed.

Example parseData_scenario :
  parseData [["t1"; "vm1"; "state"; "running"]] "state" = ("running", None)
  ∧ parseData [["t1"; "vm1"; "state"; "running"]] "missing-field"
    = ("", Some (parseData_error "missing-field"))
  ∧ parseData [["t"; "vm"; "state"; "saved"]; ["t"; "vm"; "state"];
               ["t"; "vm"; "state"; "running"; "x"]] "state" = ("running", None).
Proof. done. Qed.

(** C4. [toStatus] maps "running", "not_created", "saved" and "poweroff" to
    their statuses without an error, and answers every other string with
    [Unknown] and an error whose message carries that string. *)
Theorem toStatus_fails_closed (state : string) :
  (state = "running" ∧ toStatus state = (Running, None))
  ∨ (state = "not_created" ∧ toStatus state = (NotCreated, None))
  ∨ (state = "saved" ∧ toStatus state = (Saved, None))
  ∨ (state = "poweroff" ∧ toStatus state = (PowerOff, None))
  ∨ ((state ∉ known_states)
     ∧ toStatus state
       = (Unknown, Some (ErrorString ("Unknown state: " +:+ state)))).
Proof.
  unfold toStatus, known_states.
  destruct (String.eqb_spec state "running") as [->|H1]; [by left|].
  destruct (String.eqb_spec state "not_created") as [->|H2].
  { right; left. done. }
  destruct (String.eqb_spec state "saved") as [->|H3].
  { right; right; left. done. }
  destruct (String.eqb_spec state "poweroff") as [->|H4].
  { right; right; right; left. done. }
  right; right; right; right. split; [|done].
  rewrite !elem_of_cons, elem_of_nil. tauto.
Qed.

(** The first revision of [toStatus] maps an unlisted string to [Unknown]
    without an error, and "poweroff" is unlisted there. *)
Example toStatus_v0_silent :
  toStatus_v0 "poweroff" = Unknown ∧ toStatus_v0 "halted" = Unknown
  ∧ toStatus "halted" = (Unknown, Some (ErrorString "Unknown state: halted")).
Proof. done. Qed.

(** ** The session operations *)

Lemma vagrantfileExists_not_exist E v w :
  vagrantfileExists E v w ≠ None →
  os_IsNotExist (vagrantfileExists E v w) = true.
Proof.
  unfold vagrantfileExists.
  by destruct (os_IsNotExist (os_Stat E w (vagrantfile E v))) eqn:Hne.
Qed.

Lemma vagrantfileExists_present E v w :
  is_Some (files w !! vagrantfile E v) → vagrantfileExists E v w = None.
Proof.
  intros Hf. unfold vagrantfileExists, os_Stat.
  destruct (stat_fault E (vagrantfile E v)); [done|].
  by rewrite bool_decide_eq_true_2.
Qed.

Lemma vagrantfileExists_absent E v w :
  vagrantfileExists E v w ≠ None → files w !! vagrantfile E v = None.
Proof.
  intros Hne. destruct (files w !! vagrantfile E v) eqn:Hf; [|done].
  by rewrite vagrantfileExists_present in Hne.
Qed.

(** C5, as worded, fails: [Box] never looks for the Vagrantfile.  Without
    one it starts its subprocess and returns its output. *)
Lemma Box_runs_without_Vagrantfile :
  ¬ requires_Vagrantfile (λ E v, Box E v List).
Proof.
  intros H.
  destruct (H (demo_env (demo_process ([], None) ([], None) None))
              demo_session empty_world) as [Herr _].
  - vm_compute. discriminate.
  - vm_compute in Herr. discriminate.
Qed.

(** [Up] does not insist on the Vagrantfile either: it creates it. *)
Lemma Up_runs_without_Vagrantfile :
  ¬ requires_Vagrantfile (λ E v, Up E v "config").
Proof.
  intros H.
  destruct (H (demo_env (demo_process ([], None) ([], None) None))
              demo_session empty_world) as [Herr _].
  - vm_compute. discriminate.
  - vm_compute in Herr. discriminate.
Qed.

(** C5, amended. When [os.Stat] reports the Vagrantfile absent, [Status]
    and [Destroy] return that not-exist error and leave the world as it
    was: no subprocess is started.  [Version] and [Box] do not look for the
    file and start their subprocess whenever it can be started; [Up], given
    content, writes the file if it can be written. *)
Theorem Status_Destroy_require_Vagrantfile (E : Env) (v : Vagrant) (w : world) :
  vagrantfileExists E v w ≠ None →
  (os_IsNotExist (vagrantfileExists E v w) = true
   ∧ Vagrant_Status E v w = (w, (Unknown, vagrantfileExists E v w))
   ∧ Destroy E v w = (w, (None, vagrantfileExists E v w)))
  ∧ (∀ sub,
       let argv := ["vagrant"; "box"; BoxSubcommand_String sub;
                    "--machine-readable"] in
       start_err (exec_Command E (VagrantfilePath v) argv) = None →
       spawned (fst (Box E v sub w)) = spawned w ++ [(VagrantfilePath v, argv)])
  ∧ (let argv := ["vagrant"; "version"; "--machine-readable"] in
     start_err (exec_Command E (VagrantfilePath v) argv) = None →
     spawned (fst (Version E v w)) = spawned w ++ [(VagrantfilePath v, argv)])
  ∧ (∀ content,
       content ≠ "" → write_fault E (vagrantfile E v) = None →
       files (fst (Up E v content w)) !! vagrantfile E v = Some content).
Proof.
  intros Hne. split; [|split; [|split]].
  - split; [by apply vagrantfileExists_not_exist|].
    unfold Vagrant_Status, Destroy.
    by destruct (vagrantfileExists E v w).
  - intros sub argv Hstart.
    unfold Box, runCommand, Cmd_CombinedOutput, Cmd_Start, behaviour. simpl.
    fold argv. rewrite Hstart.
    by destruct (wait_err (exec_Command E (VagrantfilePath v) argv)).
  - intros argv Hstart.
    unfold Version, runCommand, Cmd_CombinedOutput, Cmd_Start, behaviour. simpl.
    fold argv. rewrite Hstart.
    destruct (wait_err (exec_Command E (VagrantfilePath v) argv)); [done|].
    destruct (parseRecords E _) as [records [e|]]; [done|].
    by destruct (parseData records "version-installed") as [d [e|]].
  - intros content Hcontent Hwrite. unfold Up.
    destruct (String.eqb_spec content "") as [->|_]; [done|].
    destruct (vagrantfileExists E v w) as [e|]; [|done].
    unfold ioutil_WriteFile. rewrite Hwrite.
    set (w1 := set_files _ w).
    assert (Hw1 : files w1 !! vagrantfile E v = Some content)
      by apply lookup_insert_eq.
    destruct (stdoutpipe_err _); [done|].
    destruct (stderrpipe_err _); [done|].
    unfold Cmd_Start. by destruct (start_err _).
Qed.

Lemma Status_Destroy_require_Vagrantfile_witness :
  Vagrant_Status (demo_env (demo_process ([], None) ([], None) None))
    demo_session empty_world
  = (empty_world,
     (Unknown, Some (ErrNotExist "/home/u/.koding-boxes/box/Vagrantfile")))
  ∧ spawned (fst (Box (demo_env (demo_process ([], None) ([], None) None))
                    demo_session List empty_world))
    = [("/home/u/.koding-boxes/box",
        ["vagrant"; "box"; "List"; "--machine-readable"])].
Proof.
  pose proof (Status_Destroy_require_Vagrantfile
                (demo_env (demo_process ([], None) ([], None) None))
                demo_session empty_world) as H.
  destruct H as [[_ [HS _]] [HB _]].
  - vm_compute. discriminate.
  - split.
    + exact HS.
    + apply (HB List). reflexivity.
Defined.

(** C7. A call of [Up] on a session whose directory holds a Vagrantfile
    leaves the files on disk as they were, the Vagrantfile included; [Up]
    changes the files only by writing the Vagrantfile where there was
    none. *)
Theorem Up_never_overwrites (E : Env) (v : Vagrant) (content : string)
    (w : world) :
  (∀ c, files w !! vagrantfile E v = Some c →
        files (fst (Up E v content w)) = files w
        ∧ files (fst (Up E v content w)) !! vagrantfile E v = Some c)
  ∧ (files (fst (Up E v content w)) = files w
     ∨ (files w !! vagrantfile E v = None
        ∧ files (fst (Up E v content w))
          = <[vagrantfile E v := content]> (files w))).
Proof.
  assert (Hrest : ∀ w1 : world,
    files (fst (match stdoutpipe_err (behaviour E (createCommand v ["up"])) with
                | Some e => (w1, (None, Some e))
                | None =>
                    match stderrpipe_err (behaviour E (createCommand v ["up"])) with
                    | Some e => (w1, (None, Some e))
                    | None =>
                        match Cmd_Start E (createCommand v ["up"]) w1 with
                        | (w2, Some e) => (w2, (None, Some e))
                        | (w2, None) =>
                            (w2, (Some (Up_feed (behaviour E (createCommand v ["up"]))),
                                  None))
                        end
                    end
                end)) = files w1).
  { intros w1. destruct (stdoutpipe_err _); [done|].
    destruct (stderrpipe_err _); [done|].
    unfold Cmd_Start. by destruct (start_err _). }
  assert (Hcases : files (fst (Up E v content w)) = files w
     ∨ (vagrantfileExists E v w ≠ None
        ∧ files (fst (Up E v content w))
          = <[vagrantfile E v := content]> (files w))).
  { unfold Up. destruct (String.eqb content ""); [by left|].
    destruct (vagrantfileExists E v w) as [e|] eqn:Hex.
    - unfold ioutil_WriteFile. destruct (write_fault E _); [by left|].
      right. split; [done|]. by rewrite Hrest.
    - left. by rewrite Hrest. }
  split.
  - intros c Hc.
    destruct Hcases as [Hsame|[Hne _]].
    + by rewrite Hsame.
    + apply vagrantfileExists_absent in Hne. congruence.
  - destruct Hcases as [Hsame|[Hne Hw]]; [by left|].
    right. split; [|done]. by apply vagrantfileExists_absent.
Qed.

Lemma Up_never_overwrites_witness :
  files (fst (Up (demo_env (demo_process ([], None) ([], None) None))
                demo_session "new content"
                (set_files {[ "/home/u/.koding-boxes/box/Vagrantfile" := "old" ]}
                   empty_world)))
    !! "/home/u/.koding-boxes/box/Vagrantfile" = Some "old".
Proof.
  apply (Up_never_overwrites
           (demo_env (demo_process ([], None) ([], None) None))
           demo_session "new content"
           (set_files {[ "/home/u/.koding-boxes/box/Vagrantfile" := "old" ]}
              empty_world)).
  reflexivity.
Defined.

(** The first revision of [Up] prepares the Vagrantfile in the same way. *)
Lemma Up_v0_never_overwrites (E : Env) (v : Vagrant) (content : string)
    (w : world) (c : string) :
  files w !! vagrantfile E v = Some c →
  files (fst (Up_v0 E v content w)) = files w.
Proof.
  intros Hc. unfold Up_v0. destruct (String.eqb content ""); [done|].
  rewrite vagrantfileExists_present by eauto.
  destruct (stdoutpipe_err _); [done|].
  unfold Cmd_Start. destruct (start_err _); [done|].
  simpl. unfold wait_and_log. by destruct (wait_err _).
Qed.

(** C10. [Up] with the empty string as content returns a non-nil error at
    once: the world is as before, no file written, no subprocess started,
    and no channel is returned.  This holds for both revisions of [Up]. *)
Theorem Up_empty_content (E : Env) (v : Vagrant) (w : world) :
  Up E v "" w = (w, (None, Some (ErrorString "Vagrantfile content is empty")))
  ∧ Up_v0 E v "" w
    = (w, (None, Some (ErrorString "Vagrantfile content is empty"))).
Proof. done. Qed.

(** C9. When the current user is known, [NewVagrant] given the empty name
    returns a nil session and a nil error, and touches nothing. *)
Theorem NewVagrant_empty_name (E : Env) (w : world) (home : string) :
  user_Current E = inl home →
  NewVagrant E "" w = (w, (None, None)).
Proof. intros Hu. unfold NewVagrant. by rewrite Hu. Qed.

Lemma NewVagrant_empty_name_witness :
  NewVagrant (demo_env (demo_process ([], None) ([], None) None)) ""
    empty_world = (empty_world, (None, None)).
Proof.
  apply (NewVagrant_empty_name
           (demo_env (demo_process ([], None) ([], None) None)) empty_world
           "/home/u").
  reflexivity.
Defined.

(** A name that is not empty gives a session in the user's home. *)
Example NewVagrant_named :
  snd (NewVagrant (demo_env (demo_process ([], None) ([], None) None)) "box"
         empty_world)
  = (Some (mkVagrant "/home/u/.koding-boxes/box"), None).
Proof. reflexivity. Qed.

(** ** The command executor: [done] and [run] *)

Lemma append_nil_r (s : string) : s +:+ "" = s.
Proof.
  induction s as [|a s IH]; [done|].
  change (String a (s +:+ "") = String a s). by rewrite IH.
Qed.

Lemma append_assoc (s1 s2 s3 : string) :
  s1 +:+ (s2 +:+ s3) = (s1 +:+ s2) +:+ s3.
Proof.
  induction s1 as [|a s1 IH]; [done|].
  change (String a (s1 +:+ (s2 +:+ s3)) = String a ((s1 +:+ s2) +:+ s3)).
  by rewrite IH.
Qed.

Lemma length_zero_empty (s : string) :
  (String.length s =? 0) = String.eqb s "".
Proof. by destruct s. Qed.

Lemma done_world (c : command) (err : option error) (w : world) :
  done c err w = (set_calls (calls w ++ done_calls c err) w, err).
Proof.
  destruct w as [f d sp lg cl].
  destruct err as [e|]; simpl; unfold set_calls; simpl.
  - destruct (onFailure c); simpl; [done | by rewrite app_nil_r].
  - destruct (onSuccess c); simpl; [done | by rewrite app_nil_r].
Qed.

(** C8, as worded, fails: the callbacks are optional.  A command as
    [newCommand] makes it has none, [done] calls [onFailure] only when it
    is set, and a failing [run] of such a command returns without any
    callback having been called. *)
Lemma run_without_callback_calls_none :
  ¬ run_failure_contract (demo_env boom)
      (newCommand "/home/u/.koding-boxes/box") ["status"] empty_world.
Proof.
  intros Hcontract.
  destruct (Hcontract (ErrSystem "exit status 1")) as (_ & _ & x & Hx);
    [reflexivity | reflexivity |].
  vm_compute in Hx. discriminate.
Qed.

(** C8, amended.  When the subprocess of [run] was started and exits with
    an error, [run] returns the empty string and an error whose message
    ends with the combined output ("<exit error>: <output>", or the exit
    error alone when there was no output); by the time [run] returns, the
    failure callback has been called once with that error if it is set,
    and no callback has been called if it is not.  [runCommand] of
    vagrant.go, which has no callbacks, returns the empty string and the
    exit error as it is, and calls nothing. *)
Theorem run_failure_wraps_output (E : Env) (c : command) (args : list string)
    (w : world) (e : error) :
  start_err (behaviour E (init c args)) = None →
  wait_err (behaviour E (init c args)) = Some e →
  let out := combined (behaviour E (init c args)) in
  let err := if String.eqb out "" then e else wrap_output e out in
  run E c args w
  = (set_calls (calls w ++ if onFailure c then [CallFailure err] else [])
       (set_spawned (spawned w ++ [(cwd c, "vagrant" :: args)]) w),
     ("", Some err))
  ∧ (∃ prefix, Error err = prefix +:+ out)
  ∧ (out ≠ "" → Error err = Error e +:+ ": " +:+ out)
  ∧ (∀ (v : Vagrant) (args' : list string) (e' : error),
       let p' := exec_Command E (VagrantfilePath v)
                   ("vagrant" :: args' ++ ["--machine-readable"]) in
       start_err p' = None → wait_err p' = Some e' →
       snd (runCommand E v args' w) = ("", Some e')
       ∧ calls (fst (runCommand E v args' w)) = calls w).
Proof.
  intros Hstart Hwait out err.
  split; [|split; [|split]].
  - unfold run, Cmd_CombinedOutput, Cmd_Start. rewrite Hstart, Hwait.
    fold out. rewrite length_zero_empty.
    replace (if negb (String.eqb out "") then wrap_output e out else e)
      with err by (unfold err; by destruct (String.eqb out "")).
    by rewrite done_world.
  - unfold err. destruct (String.eqb_spec out "") as [Hout|_].
    + exists (Error e). by rewrite Hout, append_nil_r.
    + exists (Error e +:+ ": "). simpl. by rewrite append_assoc.
  - intros Hout. unfold err.
    by destruct (String.eqb_spec out "") as [Hout'|_].
  - intros v args' e' p' Hstart' Hwait'.
    unfold runCommand, Cmd_CombinedOutput, Cmd_Start, behaviour. simpl.
    fold p'. by rewrite Hstart', Hwait'.
Qed.

Lemma run_failure_wraps_output_witness :
  run (demo_env boom) both_callbacks ["status"] empty_world
  = (mkWorld ∅ ∅
       [("/home/u/.koding-boxes/box", ["vagrant"; "status"])] []
       [CallFailure (ErrorString "exit status 1: boom")],
     ("", Some (ErrorString "exit status 1: boom")))
  ∧ run (demo_env boom) (newCommand "/home/u/.koding-boxes/box") ["status"]
      empty_world
    = (mkWorld ∅ ∅
         [("/home/u/.koding-boxes/box", ["vagrant"; "status"])] [] [],
       ("", Some (ErrorString "exit status 1: boom"))).
Proof.
  split.
  - etransitivity.
    + apply (run_failure_wraps_output (demo_env boom) both_callbacks
               ["status"] empty_world (ErrSystem "exit status 1"));
        reflexivity.
    + reflexivity.
  - etransitivity.
    + apply (run_failure_wraps_output (demo_env boom)
               (newCommand "/home/u/.koding-boxes/box")
               ["status"] empty_world (ErrSystem "exit status 1"));
        reflexivity.
    + reflexivity.
Defined.

(** [runCommand] of vagrant.go, which has no callbacks, returns the exit
    error as it is. *)
Example runCommand_failure_is_bare :
  snd (runCommand
         (demo_env (mkProcess None None None ([], None) ([], None) ([], None)
                      "" "boom" (Some (ErrSystem "exit status 1"))))
         demo_session ["status"] empty_world)
  = ("", Some (ErrSystem "exit status 1")).
Proof. reflexivity. Qed.

(** On success [run] returns the output and calls the success callback. *)
Lemma run_success (E : Env) (c : command) (args : list string) (w : world) :
  start_err (behaviour E (init c args)) = None →
  wait_err (behaviour E (init c args)) = None →
  run E c args w
  = (set_calls (calls w ++ done_calls c None)
       (set_spawned (spawned w ++ [(cwd c, "vagrant" :: args)]) w),
     (combined (behaviour E (init c args)), None)).
Proof.
  intros Hstart Hwait.
  unfold run, Cmd_CombinedOutput, Cmd_Start. rewrite Hstart, Hwait.
  by rewrite done_world.
Qed.

(** ** The command executor: [start] *)

Lemma sent_by_snoc from g ev l :
  sent_by from (l ++ [(g, ev)])
  = sent_by from l ++ (if decide (g = from) then [ev] else []).
Proof.
  unfold sent_by. rewrite filter_app, map_app. f_equal.
  rewrite filter_cons, filter_nil. simpl. by destruct (decide (g = from)).
Qed.

Lemma sent_by_snoc_other from g ev l :
  g ≠ from → sent_by from (l ++ [(g, ev)]) = sent_by from l.
Proof.
  intros Hne. rewrite sent_by_snoc, decide_False by done. apply app_nil_r.
Qed.

Lemma sent_by_snoc_same from ev l :
  sent_by from (l ++ [(from, ev)]) = sent_by from l ++ [ev].
Proof. by rewrite sent_by_snoc, decide_True. Qed.

Lemma inv_start c p w : inv c p w (start_state w).
Proof. split; simpl; try done. by intros []. Qed.

Lemma reader_set_reader i j pc s :
  reader j (set_reader i pc s) = if decide (i = j) then pc else reader j s.
Proof. by destruct i, j. Qed.

Lemma waiter_set_reader i pc s : waiter (set_reader i pc s) = waiter s.
Proof. by destruct i. Qed.
Lemma wg_set_reader i pc s : wg (set_reader i pc s) = wg s.
Proof. by destruct i. Qed.
Lemma closed_set_reader i pc s : closed (set_reader i pc s) = closed s.
Proof. by destruct i. Qed.
Lemma received_set_reader i pc s : received (set_reader i pc s) = received s.
Proof. by destruct i. Qed.
Lemma reaped_set_reader i pc s : reaped (set_reader i pc s) = reaped s.
Proof. by destruct i. Qed.
Lemma panicked_set_reader i pc s : panicked (set_reader i pc s) = panicked s.
Proof. by destruct i. Qed.
Lemma raced_set_reader i pc s : raced (set_reader i pc s) = raced s.
Proof. by destruct i. Qed.
Lemma gworld_set_reader i pc s : gworld (set_reader i pc s) = gworld s.
Proof. by destruct i. Qed.
Lemma reader_set_wg j n s : reader j (set_wg n s) = reader j s.
Proof. by destruct j. Qed.
Lemma reader_push j from ev s : reader j (push from ev s) = reader j s.
Proof. by destruct j. Qed.

Create Rewrite HintDb gframe.
#[local] Hint Rewrite waiter_set_reader wg_set_reader closed_set_reader
  received_set_reader reaped_set_reader panicked_set_reader raced_set_reader
  gworld_set_reader reader_set_wg reader_push : gframe.

Lemma waiter_inv_frame c p w s s' :
  waiter s' = waiter s → reaped s' = reaped s → closed s' = closed s →
  gworld s' = gworld s →
  sent_by FromWait (received s') = sent_by FromWait (received s) →
  waiter_inv c p w s → waiter_inv c p w s'.
Proof. unfold waiter_inv. by intros -> -> -> -> ->. Qed.

Lemma scanning_set_reader i pc s :
  scanning (r_out (set_reader i pc s)) + scanning (r_err (set_reader i pc s))
  + scanning (reader i s)
  = scanning (r_out s) + scanning (r_err s) + scanning pc.
Proof. destruct i; simpl; lia. Qed.

Lemma wait_last_push_reader i ev s :
  sent_by FromWait (received s) = [] → wait_last s →
  wait_last (push (FromReader i) ev s).
Proof.
  unfold wait_last. simpl. intros Hnone Hwl.
  rewrite sent_by_snoc_other by done. rewrite Hnone in *. simpl in *.
  rewrite app_nil_r in *. rewrite filter_app, filter_cons, filter_nil.
  rewrite decide_True by done. by rewrite <- Hwl.
Qed.

Lemma wait_last_push_wait ev s :
  wait_last s → wait_last (push FromWait ev s).
Proof.
  unfold wait_last. simpl. intros Hwl.
  rewrite sent_by_snoc_same, map_app, filter_app, filter_cons, filter_nil.
  rewrite decide_False by (simpl; tauto).
  rewrite app_nil_r, app_assoc. by rewrite <- Hwl.
Qed.

(** A reader that has not exited keeps an orderly run at [wg.Wait()]. *)
Lemma orderly_reader_at_wait c p w s i :
  inv c p w s → raced s = false → reader i s ≠ RExit → waiter s = WWait.
Proof.
  intros Hinv Hr Hne. destruct (waiter s) eqn:Hw; [done|..];
    (destruct (inv_barrier _ _ _ _ Hinv Hr) as [Ho He]; [by rewrite Hw|];
     destruct i; simpl in Hne; congruence).
Qed.

Lemma closed_after_wait c p w s :
  inv c p w s → closed s = true → waiter s ≠ WWait.
Proof.
  intros Hinv Hc Hw. pose proof (inv_waiter _ _ _ _ Hinv) as Hwi.
  unfold waiter_inv in Hwi. rewrite Hw in Hwi. destruct Hwi as (_ & ? & _).
  congruence.
Qed.


Lemma remaining_yield p i :
  events_of (fst (yield_of p i), snd (yield_of p i)) = events_of (yield_of p i).
Proof. by destruct (yield_of p i). Qed.




Lemma inv_panic c p w s :
  inv c p w s → raced s = true → inv c p w (panic s).
Proof.
  intros [Hwg Hst Hw Hbw Hbar Hnp Hwl] Hrc.
  split; simpl; try done; congruence.
Qed.

(** An output goroutine sends [ev] and goes on at [pc']. *)
Lemma inv_reader_send c p w s i ev pc' :
  inv c p w s →
  remaining p i (reader i s) = ev :: remaining p i pc' →
  scanning (reader i s) = scanning pc' →
  inv c p w (set_reader i pc' (push (FromReader i) ev s)).
Proof.
  intros Hinv Hrem Hscan.
  pose proof Hinv as [Hwg Hst Hw Hbw Hbar Hnp Hwl].
  assert (Hne : reader i s ≠ RExit).
  { intros Hex. rewrite Hex in Hrem. done. }
  split; autorewrite with gframe; simpl.
  - destruct i; simpl in *; lia.
  - intros j. rewrite reader_set_reader. autorewrite with gframe. simpl.
    destruct (decide (i = j)) as [<-|Hij].
    + rewrite sent_by_snoc_same, <- (Hst i), Hrem, <- app_assoc. done.
    + rewrite sent_by_snoc_other by congruence. apply (Hst j).
  - eapply waiter_inv_frame; [..|exact Hw]; autorewrite with gframe; simpl;
      try done. by rewrite sent_by_snoc_other.
  - done.
  - intros Hrc Hwt. exfalso. apply Hwt.
    eapply orderly_reader_at_wait; eauto.
  - done.
  - intros Hrc.
    assert (Hwt : waiter s = WWait)
      by (eapply orderly_reader_at_wait; eauto).
    unfold waiter_inv in Hw. rewrite Hwt in Hw.
    destruct Hw as (_ & _ & _ & Hnone).
    pose proof (wait_last_push_reader i ev s Hnone (Hwl Hrc)) as Hpush.
    unfold wait_last in *. by autorewrite with gframe.
Qed.

Lemma inv_reader_step c p k w i s s' :
  inv c p w s → panicked s = false →
  reader_step p k i s = Some s' → inv c p w s'.
Proof.
  intros Hinv Hpan Hstep.
  pose proof Hinv as [Hwg Hst Hw Hbw Hbar Hnp Hwl].
  assert (Hord : reader i s ≠ RExit → raced s = false → waiter s = WWait)
    by (intros; by eapply orderly_reader_at_wait).
  assert (Hclosed : closed s = true → reader i s ≠ RExit → raced s = true).
  { intros Hcl Hne. destruct (raced s) eqn:Hrc; [done|].
    exfalso. eapply closed_after_wait; eauto. }
  unfold reader_step in Hstep.
  destruct (reader i s) as [|[|l todo] [e|]|] eqn:Hr.
  - (* wg.Add(1) *)
    injection Hstep as <-. split; autorewrite with gframe; simpl.
    + destruct i; simpl in *; rewrite Hr in *; simpl in *; lia.
    + intros j. rewrite reader_set_reader. autorewrite with gframe.
      destruct (decide (i = j)) as [<-|Hij]; [|apply (Hst j)].
      rewrite <- (Hst i), Hr.
      change (remaining p i (RScan (fst (yield_of p i)) (snd (yield_of p i))))
        with (events_of (fst (yield_of p i), snd (yield_of p i))).
      by rewrite remaining_yield.
    + eapply waiter_inv_frame; [..|exact Hw]; by autorewrite with gframe.
    + done.
    + intros Hrc Hwt. exfalso. apply Hwt. by apply Hord.
    + done.
    + intros Hrc. specialize (Hwl Hrc). unfold wait_last in *.
      by autorewrite with gframe.
  - (* the error of the scanner is sent *)
    unfold send in Hstep. destruct (closed s) eqn:Hcl.
    + injection Hstep as <-. apply inv_panic; [done|]. by apply Hclosed.
    + destruct (ready k s); [|done]. injection Hstep as <-.
      apply inv_reader_send; [done|by rewrite Hr|by rewrite Hr].
  - (* wg.Done() *)
    injection Hstep as <-.
    assert (Hpos : ∃ n, wg s = S n).
    { destruct i; simpl in *; rewrite Hr in Hwg; simpl in Hwg;
        destruct (wg s); eauto; lia. }
    destruct Hpos as [n Hn]. unfold wg_Done. rewrite Hn.
    split; autorewrite with gframe; simpl.
    + destruct i; simpl in *; rewrite Hr in *; simpl in *; lia.
    + intros j. rewrite reader_set_reader. autorewrite with gframe.
      destruct (decide (i = j)) as [<-|Hij]; [|apply (Hst j)].
      by rewrite <- (Hst i), Hr.
    + eapply waiter_inv_frame; [..|exact Hw]; by autorewrite with gframe.
    + done.
    + intros Hrc Hwt. exfalso. apply Hwt. by apply Hord.
    + done.
    + intros Hrc. specialize (Hwl Hrc). unfold wait_last in *.
      by autorewrite with gframe.
  - (* a line is sent *)
    unfold send in Hstep. destruct (closed s) eqn:Hcl.
    + injection Hstep as <-. apply inv_panic; [done|]. by apply Hclosed.
    + destruct (ready k s); [|done]. injection Hstep as <-.
      apply inv_reader_send; [done|by rewrite Hr|by rewrite Hr].
  - (* a line is sent *)
    unfold send in Hstep. destruct (closed s) eqn:Hcl.
    + injection Hstep as <-. apply inv_panic; [done|]. by apply Hclosed.
    + destruct (ready k s); [|done]. injection Hstep as <-.
      apply inv_reader_send; [done|by rewrite Hr|by rewrite Hr].
  - done.
Qed.

Lemma reader_set_waiter j pc s : reader j (set_waiter pc s) = reader j s.
Proof. by destruct j. Qed.

Lemma inv_waiter_step c p k w s s' :
  inv c p w s → panicked s = false →
  waiter_step c p k s = Some s' → inv c p w s'.
Proof.
  intros Hinv Hpan Hstep.
  pose proof Hinv as [Hwg Hst Hw Hbw Hbar Hnp Hwl].
  unfold waiter_step in Hstep. unfold waiter_inv in Hw.
  destruct (waiter s) as [| |e|err|err|] eqn:Hwt.
  - (* wg.Wait() *)
    destruct (wg s =? 0) eqn:Hz; [|done]. injection Hstep as <-.
    split; simpl.
    + done.
    + apply Hst.
    + unfold waiter_inv. simpl. done.
    + done.
    + intros Hrc _. apply negb_false_iff, andb_true_iff in Hrc as [Ho He].
      by destruct (r_out s), (r_err s).
    + done.
    + intros _. by apply Hwl, Hbw.
  - (* cmd.cmd.Wait() *)
    injection Hstep as <-. destruct Hw as (Hre & Hcl & Hgw & Hnone).
    split; simpl.
    + done.
    + apply Hst.
    + unfold waiter_inv, wait_events. simpl. by destruct (wait_err p).
    + by destruct (wait_err p).
    + intros Hrc _. by apply Hbar.
    + done.
    + done.
  - (* the error of cmd.cmd.Wait() is sent *)
    destruct Hw as (Hwe & Hre & Hcl & Hgw & Hnone).
    unfold send in Hstep. rewrite Hcl in Hstep.
    destruct (ready k s); [|done]. injection Hstep as <-.
    split; simpl.
    + done.
    + intros j. rewrite sent_by_snoc_other by done.
      rewrite reader_set_waiter, reader_push. apply (Hst j).
    + unfold waiter_inv, wait_events. simpl.
      by rewrite sent_by_snoc_same, Hnone, Hwe.
    + done.
    + intros Hrc _. by apply Hbar.
    + done.
    + intros Hrc. by apply (wait_last_push_wait (error_event e) s), Hwl.
  - (* close(out) *)
    injection Hstep as <-. destruct Hw as (Hwe & Hre & Hcl & Hgw & Hsent).
    split; simpl.
    + done.
    + apply Hst.
    + unfold waiter_inv. simpl. done.
    + done.
    + intros Hrc _. by apply Hbar.
    + done.
    + done.
  - (* cmd.done(err) *)
    injection Hstep as <-. destruct Hw as (Hwe & Hre & Hcl & Hgw & Hsent).
    split; simpl.
    + done.
    + apply Hst.
    + unfold waiter_inv. simpl. by rewrite Hgw, Hwe.
    + done.
    + intros Hrc _. by apply Hbar.
    + done.
    + done.
  - done.
Qed.

Lemma inv_step c p k w t s s' :
  inv c p w s → gstep c p k t s = Some s' → inv c p w s'.
Proof.
  intros Hinv Hstep. unfold gstep in Hstep.
  destruct (panicked s) eqn:Hpan; [done|].
  destruct t as [i|].
  - by eapply inv_reader_step.
  - by eapply inv_waiter_step.
Qed.

Lemma reachable_inv c p k w s : reachable c p k w s → inv c p w s.
Proof.
  induction 1 as [|s t s' _ IH Hstep].
  - apply inv_start.
  - by eapply inv_step.
Qed.

Lemma run_schedule_reachable c p k w sched s s' :
  reachable c p k w s → run_schedule c p k sched s = Some s' →
  reachable c p k w s'.
Proof.
  revert s. induction sched as [|t sched IH]; intros s Hs Hrun; simpl in Hrun.
  - by injection Hrun as <-.
  - destruct (gstep c p k t s) as [s1|] eqn:Hstep; [|done].
    eapply IH; [|done]. by eapply reach_step.
Qed.

Lemma weight_set_reader p i pc s :
  weight p (set_reader i pc s) + reader_weight (yield_of p i) (reader i s)
  = weight p s + reader_weight (yield_of p i) pc.
Proof. unfold weight. destruct i; simpl; lia. Qed.

Lemma weight_panic p s :
  panicked s = false → weight p (panic s) + 1 = weight p s.
Proof. unfold weight. simpl. intros ->. lia. Qed.

Lemma weight_decreases c p k t s s' :
  gstep c p k t s = Some s' → weight p s' < weight p s.
Proof.
  unfold gstep. destruct (panicked s) eqn:Hpan; [done|].
  pose proof (weight_panic p s Hpan) as Hwp.
  destruct t as [i|].
  - unfold reader_step, send. intros Hstep.
    destruct (reader i s) as [|[|l todo] [e|]|] eqn:Hr.
    + injection Hstep as <-.
      pose proof (weight_set_reader p i
        (RScan (fst (yield_of p i)) (snd (yield_of p i))) (set_wg (S (wg s)) s))
        as Hw.
      rewrite reader_set_wg, Hr in Hw.
      change (weight p (set_wg (S (wg s)) s)) with (weight p s) in Hw.
      simpl in Hw. destruct (snd (yield_of p i)); lia.
    + destruct (closed s); [injection Hstep as <-; lia|].
      destruct (ready k s); [|done]. injection Hstep as <-.
      pose proof (weight_set_reader p i (RScan [] None)
        (push (FromReader i) (error_event e) s)) as Hw.
      rewrite reader_push, Hr in Hw.
      change (weight p (push (FromReader i) (error_event e) s))
        with (weight p s) in Hw.
      simpl in Hw. lia.
    + injection Hstep as <-.
      pose proof (weight_set_reader p i RExit (wg_Done s)) as Hw.
      assert (Hd : weight p (wg_Done s) ≤ weight p s).
      { unfold wg_Done. destruct (wg s); [lia|]. by unfold weight. }
      replace (reader i (wg_Done s)) with (reader i s) in Hw
        by (unfold wg_Done; destruct (wg s), i; done).
      rewrite Hr in Hw. simpl in Hw. lia.
    + destruct (closed s); [injection Hstep as <-; lia|].
      destruct (ready k s); [|done]. injection Hstep as <-.
      pose proof (weight_set_reader p i (RScan todo (Some e))
        (push (FromReader i) (line_event l) s)) as Hw.
      rewrite reader_push, Hr in Hw.
      change (weight p (push (FromReader i) (line_event l) s))
        with (weight p s) in Hw.
      simpl in Hw. lia.
    + destruct (closed s); [injection Hstep as <-; lia|].
      destruct (ready k s); [|done]. injection Hstep as <-.
      pose proof (weight_set_reader p i (RScan todo None)
        (push (FromReader i) (line_event l) s)) as Hw.
      rewrite reader_push, Hr in Hw.
      change (weight p (push (FromReader i) (line_event l) s))
        with (weight p s) in Hw.
      simpl in Hw. lia.
    + done.
  - unfold waiter_step, send. intros Hstep.
    destruct (waiter s) eqn:Hwt.
    + destruct (wg s =? 0); [|done]. injection Hstep as <-.
      unfold weight. simpl. rewrite Hwt, Hpan. simpl. lia.
    + injection Hstep as <-. unfold weight. simpl. rewrite Hwt, Hpan.
      destruct (wait_err p); simpl; lia.
    + destruct (closed s); [injection Hstep as <-; lia|].
      destruct (ready k s); [|done]. injection Hstep as <-.
      unfold weight. simpl. rewrite Hwt, Hpan. simpl. lia.
    + injection Hstep as <-. unfold weight. simpl. rewrite Hwt, Hpan.
      simpl. lia.
    + injection Hstep as <-. unfold weight. simpl. rewrite Hwt, Hpan.
      simpl. lia.
    + done.
Qed.


Lemma sent_by_seen from ev l : ev ∈ sent_by from l → ev ∈ map snd l.
Proof.
  unfold sent_by. rewrite !list_elem_of_fmap.
  intros (x & -> & Hx). apply list_elem_of_filter in Hx as [_ Hx]. eauto.
Qed.

Lemma count_by_sender (P : CommandOutput → Prop) `{∀ x, Decision (P x)}
    (l : list (sender * CommandOutput)) :
  length (filter P (map snd l))
  = length (filter P (sent_by (FromReader Stdout) l))
    + length (filter P (sent_by (FromReader Stderr) l))
    + length (filter P (sent_by FromWait l)).
Proof.
  induction l as [|[from ev] l IH]; [done|].
  unfold sent_by in *.
  change (map snd ((from, ev) :: l)) with (ev :: map snd l).
  rewrite !(filter_cons _ (from, ev)). simpl.
  destruct from as [[]|];
    repeat (first [rewrite decide_True by done | rewrite decide_False by done]);
    simpl; rewrite !filter_cons; destruct (decide (P ev)); simpl; lia.
Qed.

Lemma line_events_of (y : yield) :
  line_events (events_of y) = map line_event (fst y).
Proof.
  destruct y as [ls e]. unfold events_of, line_events. simpl.
  rewrite filter_app.
  replace (filter (λ ev, is_line ev = true)
             match e with Some e0 => [error_event e0] | None => [] end)
    with (@nil CommandOutput) by (by destruct e).
  rewrite app_nil_r. induction ls as [|l ls IH]; [done|].
  simpl. rewrite filter_cons_True by done. by rewrite IH.
Qed.

Lemma error_events_of (y : yield) : length (error_events (events_of y)) ≤ 1.
Proof.
  destruct y as [ls e]. unfold events_of, error_events. simpl.
  rewrite filter_app, length_app.
  assert (length (filter (λ ev, is_line ev = false) (map line_event ls)) = 0)
    as ->.
  { induction ls as [|l ls IH]; [done|]. simpl. apply IH. }
  destruct e; simpl; lia.
Qed.

Lemma line_events_wait (p : process) : line_events (wait_events p) = [].
Proof. unfold wait_events. by destruct (wait_err p). Qed.

Lemma closed_waiter c p w s :
  inv c p w s → closed s = true →
  waiter s ≠ WWait ∧ sent_by FromWait (received s) = wait_events p.
Proof.
  intros Hinv Hcl. pose proof (inv_waiter _ _ _ _ Hinv) as Hw.
  unfold waiter_inv in Hw.
  destruct (waiter s); destruct_and?; split; congruence.
Qed.

Lemma orderly_closed_all_sent c p w s :
  inv c p w s → raced s = false → closed s = true →
  (∀ i, sent_by (FromReader i) (received s) = events_of (yield_of p i))
  ∧ sent_by FromWait (received s) = wait_events p.
Proof.
  intros Hinv Hrc Hcl.
  destruct (closed_waiter _ _ _ _ Hinv Hcl) as [Hwt Hsent].
  destruct (inv_barrier _ _ _ _ Hinv Hrc Hwt) as [Ho He].
  split; [|done]. intros i.
  rewrite <- (inv_streams _ _ _ _ Hinv i).
  destruct i; simpl; rewrite ?Ho, ?He; simpl; by rewrite app_nil_r.
Qed.

(** Without the race, the channel is closed after every line of both
    streams has been delivered. *)
Lemma start_orderly_delivers_all c p k w s :
  reachable c p k w s → raced s = false → closed s = true →
  length (line_events (seen s))
    = length (fst (stdout_yield p)) + length (fst (stderr_yield p))
  ∧ ∀ i, line_events (sent_by (FromReader i) (received s))
         = map line_event (fst (yield_of p i)).
Proof.
  intros Hreach Hrc Hcl. apply reachable_inv in Hreach as Hinv.
  destruct (orderly_closed_all_sent _ _ _ _ Hinv Hrc Hcl) as [Hall Hwait].
  split.
  - unfold seen, line_events. rewrite count_by_sender.
    rewrite (Hall Stdout), (Hall Stderr), Hwait.
    fold (line_events (events_of (yield_of p Stdout))).
    fold (line_events (events_of (yield_of p Stderr))).
    fold (line_events (wait_events p)).
    rewrite !line_events_of, line_events_wait, !length_map. simpl. lia.
  - intros i. by rewrite (Hall i), line_events_of.
Qed.

(** C1, on the code.  The claim asks that every line of both streams is
    delivered before the channel is closed.  [start] calls [wg.Add(1)]
    inside the output goroutines, so the waiting goroutine can pass
    [wg.Wait()] before they have begun: for a process that prints the one
    line "a", the channel is then closed with no line delivered, and the
    output goroutine that sends the line afterwards panics. *)
Theorem start_closes_before_lines :
  ¬ delivers_all_lines both_callbacks one_line Drain empty_world
  ∧ ∃ s, reachable both_callbacks one_line Drain empty_world s
         ∧ seen s = [] ∧ closed s = true ∧ panicked s = true.
Proof.
  assert (Hearly : ∃ s,
    run_schedule both_callbacks one_line Drain [TWaiter; TWaiter; TWaiter]
      (start_state empty_world) = Some s
    ∧ closed s = true ∧ seen s = []).
  { eexists. split; [reflexivity|]. done. }
  destruct Hearly as (s & Hrun & Hcl & Hseen).
  split.
  - intros Hall.
    destruct (Hall s) as [Hlen _]; [|done|].
    + eapply run_schedule_reachable; [apply reach_start | exact Hrun].
    + rewrite Hseen in Hlen. done.
  - eexists. split.
    + eapply run_schedule_reachable; [apply reach_start|].
      instantiate (2 := [TWaiter; TWaiter; TWaiter;
                         TReader Stdout; TReader Stdout]).
      reflexivity.
    + done.
Qed.





(** C6, as worded, fails: the two output goroutines are independent.  When
    the scanner of stdout stops with an error, its error event is
    delivered and the lines of stderr still follow it. *)
Lemma line_follows_error_event :
  ¬ stream_contract both_callbacks long_line Drain empty_world.
Proof.
  intros Hcontract.
  pose (sched := [TReader Stdout; TReader Stderr; TReader Stdout;
                  TReader Stderr; TReader Stdout; TReader Stderr;
                  TWaiter; TWaiter; TWaiter]).
  destruct (run_schedule both_callbacks long_line Drain sched
              (start_state empty_world)) as [s|] eqn:Hrun; [|done].
  destruct (Hcontract s) as [(ls & e1 & e2 & Hshape) _].
  - eapply run_schedule_reachable; [apply reach_start | exact Hrun].
  - by injection Hrun as <-.
  - injection Hrun as <-. unfold seen in Hshape. simpl in Hshape.
    destruct ls as [|l ls]; [|done].
    destruct e1, e2; done.
Qed.

(** The single goroutine of [Up] in vagrant.go does deliver lines, then at
    most one scan error, then at most one wait error. *)
Lemma Up_feed_lines_then_errors (p : process) : lines_then_errors (Up_feed p).
Proof.
  exists (fst (merged_yield p)), (snd (merged_yield p)), (wait_err p).
  done.
Qed.

Lemma reader_errors_le c p w s i :
  inv c p w s →
  length (error_events (sent_by (FromReader i) (received s))) ≤ 1.
Proof.
  intros Hinv. pose proof (error_events_of (yield_of p i)) as Hle.
  rewrite <- (inv_streams _ _ _ _ Hinv i) in Hle.
  unfold error_events in *. rewrite filter_app, length_app in Hle. lia.
Qed.

Lemma wait_errors_le c p w s :
  inv c p w s → length (error_events (sent_by FromWait (received s))) ≤ 1.
Proof.
  intros Hinv. unfold error_events.
  etransitivity; [apply length_filter|].
  pose proof (inv_waiter _ _ _ _ Hinv) as Hw. unfold waiter_inv in Hw.
  assert (Hlen : length (wait_events p) ≤ 1)
    by (unfold wait_events; destruct (wait_err p); simpl; lia).
  destruct (waiter s); destruct_and?;
    match goal with H : sent_by FromWait _ = _ |- _ => rewrite H end;
    simpl; lia.
Qed.

(** C6, amended.  When the channel of [start] is closed and no error event
    was delivered, [cmd.Wait()] returned nil.  In an execution without the
    race: the events of each stream are delivered in the order of that
    stream, its lines and then at most one error event of its scanner; the
    wait-error event comes after all of them; at most three error events are
    delivered; and when the channel is closed every event of both streams
    and the wait error, if any, have been delivered. *)
Theorem start_events_in_stream_order (c : command) (p : process)
    (k : consumer) (w : world) (s : gstate) :
  reachable c p k w s →
  (closed s = true → error_events (seen s) = [] → wait_err p = None)
  ∧ (raced s = false →
     (∀ i, ∃ rest,
        events_of (yield_of p i) = sent_by (FromReader i) (received s) ++ rest)
     ∧ wait_last s
     ∧ length (error_events (seen s)) ≤ 3
     ∧ (closed s = true →
        (∀ i, sent_by (FromReader i) (received s) = events_of (yield_of p i))
        ∧ sent_by FromWait (received s) = wait_events p)).
Proof.
  intros Hreach. apply reachable_inv in Hreach as Hinv. split.
  - intros Hcl Hnone.
    destruct (closed_waiter _ _ _ _ Hinv Hcl) as [_ Hsent].
    destruct (wait_err p) as [e|] eqn:Hwe; [|done]. exfalso.
    assert (Hin : error_event e ∈ error_events (seen s)).
    { unfold error_events. apply list_elem_of_filter. split; [done|].
      apply (sent_by_seen FromWait). rewrite Hsent. unfold wait_events.
      rewrite Hwe. apply list_elem_of_here. }
    rewrite Hnone in Hin. by apply elem_of_nil in Hin.
  - intros Hrc. split; [|split; [|split]].
    + intros i. eexists. symmetry. apply (inv_streams _ _ _ _ Hinv i).
    + by apply (inv_wait_last _ _ _ _ Hinv).
    + unfold seen, error_events. rewrite count_by_sender.
      pose proof (reader_errors_le _ _ _ _ Stdout Hinv).
      pose proof (reader_errors_le _ _ _ _ Stderr Hinv).
      pose proof (wait_errors_le _ _ _ _ Hinv).
      unfold error_events in *. lia.
    + intros Hcl. by eapply orderly_closed_all_sent.
Qed.

Lemma start_events_in_stream_order_witness :
  ∃ s, reachable both_callbacks long_line Drain empty_world s
       ∧ seen s = [error_event (ErrSystem "bufio.Scanner: token too long");
                   line_event "x"]
       ∧ sent_by (FromReader Stderr) (received s) = [line_event "x"]
       ∧ wait_err long_line = None.
Proof.
  pose (sched := [TReader Stdout; TReader Stderr; TReader Stdout;
                  TReader Stderr; TReader Stdout; TReader Stderr;
                  TWaiter; TWaiter; TWaiter]).
  destruct (run_schedule both_callbacks long_line Drain sched
              (start_state empty_world)) as [s|] eqn:Hrun; [|done].
  assert (Hreach : reachable both_callbacks long_line Drain empty_world s)
    by (eapply run_schedule_reachable; [apply reach_start | exact Hrun]).
  destruct (start_events_in_stream_order both_callbacks long_line Drain
              empty_world s Hreach) as [_ Horderly].
  destruct Horderly as (_ & _ & _ & Hclosed).
  - by injection Hrun as <-.
  - destruct Hclosed as [Hall _].
    + by injection Hrun as <-.
    + exists s. split; [done|]. split; [by injection Hrun as <-|].
      split; [apply (Hall Stderr) | done].
Defined.


(** ** [start] and [run] as a whole *)

(** When [start] returns a channel, the subprocess has been started, no
    callback has been called yet and the goroutines are in [start_state]. *)
Lemma start_started (E : Env) (c : command) (args : list string)
    (w w1 : world) (s0 : gstate) (r : option error) :
  start E c args w = (w1, (Some s0, r)) →
  r = None ∧ s0 = start_state w1 ∧ calls w1 = calls w
  ∧ spawned w1 = spawned w ++ [(cwd c, "vagrant" :: args)].
Proof.
  unfold start.
  destruct (stdoutpipe_err _); [by rewrite done_world|].
  destruct (stderrpipe_err _); [by rewrite done_world|].
  unfold Cmd_Start. destruct (start_err _); [by rewrite done_world|].
  by intros [= <- <- <-].
Qed.

(** When [start] returns no channel, no subprocess was started and [done]
    has been called with the error returned. *)
Lemma start_failed (E : Env) (c : command) (args : list string)
    (w w1 : world) (r : option error) :
  start E c args w = (w1, (None, r)) →
  (∃ e, r = Some e) ∧ calls w1 = calls w ++ done_calls c r
  ∧ spawned w1 = spawned w.
Proof.
  unfold start.
  destruct (stdoutpipe_err _) as [e|];
    [rewrite done_world; intros [= <- <-]; eauto|].
  destruct (stderrpipe_err _) as [e|];
    [rewrite done_world; intros [= <- <-]; eauto|].
  unfold Cmd_Start. destruct (start_err _) as [e|]; [|done].
  rewrite done_world. intros [= <- <-]; eauto.
Qed.

(** [run] calls exactly one callback when both are set. *)
Lemma run_fires_once (E : Env) (c : command) (args : list string) (w : world) :
  onSuccess c = true → onFailure c = true →
  ∃ x, calls (fst (run E c args w)) = calls w ++ [x].
Proof.
  intros Hs Hf. unfold run, Cmd_CombinedOutput, Cmd_Start.
  destruct (start_err _) as [e|]; simpl.
  - rewrite Hf. simpl. eauto.
  - destruct (wait_err _) as [e|]; simpl; rewrite ?Hs, ?Hf; simpl; eauto.
Qed.

(** The blocked state of the failing process whose consumer does not
    receive: both output goroutines have finished before [wg.Wait()]
    returned, [cmd.Wait()] has returned, the waiting goroutine is at its
    send, and no callback has been called. *)
Example unread_failure_state :
  run_schedule both_callbacks silent_failure (Take 0)
    [TReader Stdout; TReader Stdout; TReader Stderr; TReader Stderr;
     TWaiter; TWaiter]
    (start_state empty_world)
  = Some (mkG RExit RExit (WSend (ErrSystem "exit status 1")) 0 false []
            true false false empty_world).
Proof. reflexivity. Qed.

(** The same process with a consumer that drains: the wait error is the
    only event and the failure callback is called. *)
Example drained_failure_state :
  run_schedule both_callbacks silent_failure Drain
    [TReader Stdout; TReader Stdout; TReader Stderr; TReader Stderr;
     TWaiter; TWaiter; TWaiter; TWaiter; TWaiter]
    (start_state empty_world)
  = Some (mkG RExit RExit WExit 0 true
            [(FromWait, error_event (ErrSystem "exit status 1"))]
            true false false
            (set_calls [CallFailure (ErrSystem "exit status 1")] empty_world)).
Proof. reflexivity. Qed.

(** * Further properties *)

(** ** More on the parser *)

Lemma last_match_app rs1 rs2 typeName :
  last_match (rs1 ++ rs2) typeName
  = match last_match rs2 typeName with
    | Some r => Some r
    | None => last_match rs1 typeName
    end.
Proof.
  unfold last_match. rewrite filter_app.
  destruct (filter _ rs2) as [|r l] using rev_ind.
  - by rewrite app_nil_r.
  - by rewrite app_assoc, !last_snoc.
Qed.

Lemma parseData_by_last_match records typeName :
  parseData records typeName
  = match last_match records typeName with
    | Some r =>
        if String.eqb (field 3 r) "" then ("", Some (parseData_error typeName))
        else (field 3 r, None)
    | None => ("", Some (parseData_error typeName))
    end.
Proof.
  unfold parseData. rewrite parseData_loop.
  by destruct (last_match records typeName).
Qed.

(** X1. Tables concatenate: the rows of the later table decide whenever one
    of them matches, even when its value is empty; otherwise the earlier
    table decides. *)
Theorem parseData_app (rs1 rs2 : list (list string)) (typeName : string) :
  parseData (rs1 ++ rs2) typeName
  = match last_match rs2 typeName with
    | Some _ => parseData rs2 typeName
    | None => parseData rs1 typeName
    end.
Proof.
  rewrite !parseData_by_last_match, last_match_app.
  by destruct (last_match rs2 typeName).
Qed.

Lemma row_matches_payload typeName r r' :
  (4 ≤ length r ↔ 4 ≤ length r') → r !! 2 = r' !! 2 →
  row_matches typeName r = row_matches typeName r'.
Proof.
  intros Hlen H2. unfold row_matches. rewrite H2. f_equal.
  destruct (Nat.leb_spec 4 (length r)), (Nat.leb_spec 4 (length r'));
    try done; lia.
Qed.

(** X2. [parseData] reads nothing but field 2 and field 3 of the rows of
    at least four fields: two tables that agree, row by row, on whether the
    row has four fields and on these two fields give the same result,
    whatever the timestamps, the targets and the fields after the fourth
    are. *)
Theorem parseData_reads_two_fields (rs rs' : list (list string))
    (typeName : string) :
  Forall2 (λ r r', (4 ≤ length r ↔ 4 ≤ length r')
                   ∧ r !! 2 = r' !! 2 ∧ r !! 3 = r' !! 3) rs rs' →
  parseData rs typeName = parseData rs' typeName.
Proof.
  intros Hsame. unfold parseData.
  assert (Hloop : ∀ data,
    foldl (parseData_row typeName) data rs
    = foldl (parseData_row typeName) data rs'); [|by rewrite Hloop].
  induction Hsame as [|r r' rs rs' (Hlen & H2 & H3) _ IH]; intros data; [done|].
  simpl. rewrite IH. f_equal.
  rewrite !parseData_row_matches, (row_matches_payload _ r r') by done.
  unfold field. by rewrite H3.
Qed.

Lemma parseData_reads_two_fields_witness :
  parseData [["1700000000"; "default"; "state"; "running"; "extra"]] "state"
  = parseData [[""; "other"; "state"; "running"]] "state".
Proof.
  apply parseData_reads_two_fields.
  repeat constructor; simpl; lia.
Defined.

(** X3. The two revisions of [toStatus] agree on the status of every
    string but "poweroff", which only the later one knows; and where the
    later one reports an error it returns [Unknown], which is what the
    first revision returns there too. *)
Theorem toStatus_revisions_agree (state : string) :
  (state ≠ "poweroff" → fst (toStatus state) = toStatus_v0 state)
  ∧ (snd (toStatus state) ≠ None →
     fst (toStatus state) = Unknown ∧ toStatus_v0 state = Unknown)
  ∧ (snd (toStatus state) = None ↔ fst (toStatus state) ≠ Unknown).
Proof.
  unfold toStatus, toStatus_v0.
  destruct (String.eqb state "running"); [done|].
  destruct (String.eqb state "not_created"); [done|].
  destruct (String.eqb state "saved"); [done|].
  destruct (String.eqb_spec state "poweroff"); [done|].
  done.
Qed.

(** ** More on the session operations *)

Lemma toStatus_error_iff_Unknown (state : string) :
  snd (toStatus state) = None ↔ fst (toStatus state) ≠ Unknown.
Proof.
  unfold toStatus.
  destruct (String.eqb state "running"); [done|].
  destruct (String.eqb state "not_created"); [done|].
  destruct (String.eqb state "saved"); [done|].
  by destruct (String.eqb state "poweroff").
Qed.

Lemma parseData_error_iff_empty records typeName :
  snd (parseData records typeName) = None
  ↔ fst (parseData records typeName) ≠ "".
Proof.
  unfold parseData.
  by destruct (String.eqb_spec (foldl (parseData_row typeName) "" records) "").
Qed.

Lemma runCommand_world E v args w :
  let argv := "vagrant" :: args ++ ["--machine-readable"] in
  let p := exec_Command E (VagrantfilePath v) argv in
  runCommand E v args w
  = match start_err p with
    | Some e => (w, ("", Some e))
    | None =>
        (set_spawned (spawned w ++ [(VagrantfilePath v, argv)]) w,
         match wait_err p with
         | Some e => ("", Some e)
         | None => (combined p, None)
         end)
    end.
Proof.
  intros argv p. unfold runCommand, Cmd_CombinedOutput, Cmd_Start, behaviour.
  simpl. fold argv. fold p.
  destruct (start_err p); [done|]. by destruct (wait_err p).
Qed.

(** X4. [Status] composes the guard, the subprocess, the CSV reader,
    [parseData] and [toStatus]: with the Vagrantfile in place and a
    "vagrant status --machine-readable" that exits 0, the result is
    [toStatus] of field 3 of the last row of type "state", and that one
    subprocess, run in the session's directory, is all that happened. *)
Theorem Status_reports_last_state (E : Env) (v : Vagrant) (w : world)
    (records : list (list string)) (r : list string) :
  let argv := ["vagrant"; "status"; "--machine-readable"] in
  let p := exec_Command E (VagrantfilePath v) argv in
  vagrantfileExists E v w = None →
  start_err p = None → wait_err p = None →
  csv_ReadAll E (combined p) = (records, None) →
  last_match records "state" = Some r → field 3 r ≠ "" →
  Vagrant_Status E v w
  = (set_spawned (spawned w ++ [(VagrantfilePath v, argv)]) w,
     toStatus (field 3 r)).
Proof.
  intros argv p Hex Hstart Hwait Hcsv Hlast Hfield.
  unfold Vagrant_Status. rewrite Hex, runCommand_world. simpl.
  fold argv. fold p. rewrite Hstart, Hwait. unfold parseRecords. rewrite Hcsv.
  rewrite parseData_by_last_match, Hlast.
  by destruct (String.eqb_spec (field 3 r) "").
Qed.

Lemma Status_reports_last_state_witness :
  Vagrant_Status
    (table_env (demo_process ([], None) ([], None) None)
       [["1"; "default"; "state"; "poweroff"];
        ["2"; "default"; "state-human-short"; "running"];
        ["3"; "default"; "state"; "running"; "more"]])
    demo_session
    (set_files {[ "/home/u/.koding-boxes/box/Vagrantfile" := "config" ]}
       empty_world)
  = (mkWorld {[ "/home/u/.koding-boxes/box/Vagrantfile" := "config" ]} ∅
       [("/home/u/.koding-boxes/box",
         ["vagrant"; "status"; "--machine-readable"])] [] [],
     (Running, None)).
Proof.
  etransitivity.
  - apply (Status_reports_last_state
             (table_env (demo_process ([], None) ([], None) None)
                [["1"; "default"; "state"; "poweroff"];
                 ["2"; "default"; "state-human-short"; "running"];
                 ["3"; "default"; "state"; "running"; "more"]])
             demo_session
             (set_files {[ "/home/u/.koding-boxes/box/Vagrantfile" := "config" ]}
                empty_world)
             [["1"; "default"; "state"; "poweroff"];
              ["2"; "default"; "state-human-short"; "running"];
              ["3"; "default"; "state"; "running"; "more"]]
             ["3"; "default"; "state"; "running"; "more"]);
      try reflexivity.
    discriminate.
  - reflexivity.
Defined.

(** X5. The results of the queries are consistent with their errors:
    [Status] returns a nil error exactly when the status is not [Unknown],
    [Version] returns a nil error exactly when the version string is not
    empty, and [Box] returns the empty string with every error. *)
Theorem query_results_match_errors (E : Env) (v : Vagrant)
    (sub : BoxSubcommand) (w : world) :
  (snd (snd (Vagrant_Status E v w)) = None
   ↔ fst (snd (Vagrant_Status E v w)) ≠ Unknown)
  ∧ (snd (snd (Version E v w)) = None ↔ fst (snd (Version E v w)) ≠ "")
  ∧ (snd (snd (Box E v sub w)) ≠ None → fst (snd (Box E v sub w)) = "").
Proof.
  split; [|split].
  - unfold Vagrant_Status.
    destruct (vagrantfileExists E v w); [done|].
    destruct (runCommand E v ["status"] w) as [w1 [out [e|]]]; [done|].
    destruct (parseRecords E out) as [records [e|]]; [done|].
    pose proof (parseData_error_iff_empty records "state") as Hp.
    destruct (parseData records "state") as [status [e|]]; [done|].
    simpl. apply toStatus_error_iff_Unknown.
  - unfold Version.
    destruct (runCommand E v ["version"] w) as [w1 [out [e|]]]; [done|].
    destruct (parseRecords E out) as [records [e|]]; [done|].
    pose proof (parseData_error_iff_empty records "version-installed") as Hp.
    by destruct (parseData records "version-installed") as [ver [e|]].
  - unfold Box.
    by destruct (runCommand E v _ w) as [w1 [out [e|]]].
Qed.

(** X6. The queries leave the disk alone.  [Version], [Box] and [Status]
    change no file, no directory, no log line and no callback record, and
    start at most one subprocess: "vagrant" in the session's directory with
    "--machine-readable" as its last argument. *)
Theorem queries_leave_disk_alone (E : Env) (v : Vagrant) (sub : BoxSubcommand)
    (w : world) :
  Forall (λ w', files w' = files w ∧ dirs w' = dirs w ∧ logged w' = logged w
                ∧ calls w' = calls w
                ∧ (spawned w' = spawned w
                   ∨ ∃ args, spawned w'
                       = spawned w
                         ++ [(VagrantfilePath v,
                              "vagrant" :: args ++ ["--machine-readable"])]))
    [fst (Version E v w); fst (Box E v sub w); fst (Vagrant_Status E v w)].
Proof.
  assert (Hrun : ∀ args, ∀ w', w' = fst (runCommand E v args w) →
    files w' = files w ∧ dirs w' = dirs w ∧ logged w' = logged w
    ∧ calls w' = calls w
    ∧ (spawned w' = spawned w
       ∨ ∃ args, spawned w'
           = spawned w
             ++ [(VagrantfilePath v,
                  "vagrant" :: args ++ ["--machine-readable"])])).
  { intros args w' ->. rewrite runCommand_world.
    destruct (start_err _); simpl; repeat split; eauto. }
  constructor; [|constructor; [|constructor; [|constructor]]].
  - apply (Hrun ["version"]). unfold Version.
    destruct (runCommand E v ["version"] w) as [w1 [out [e|]]]; [done|].
    destruct (parseRecords E out) as [records [e|]]; [done|].
    by destruct (parseData records "version-installed") as [ver [e|]].
  - apply (Hrun ["box"; BoxSubcommand_String sub]). unfold Box.
    by destruct (runCommand E v _ w) as [w1 [out [e|]]].
  - unfold Vagrant_Status.
    destruct (vagrantfileExists E v w); [simpl; repeat split; eauto|].
    apply (Hrun ["status"]).
    destruct (runCommand E v ["status"] w) as [w1 [out [e|]]]; [done|].
    destruct (parseRecords E out) as [records [e|]]; [done|].
    destruct (parseData records "state") as [status [e|]]; [done|].
    by destruct (toStatus status).
Qed.

Lemma vagrantfileExists_disk E v w w' :
  files w' = files w → dirs w' = dirs w →
  vagrantfileExists E v w' = vagrantfileExists E v w.
Proof. intros Hf Hd. unfold vagrantfileExists, os_Stat. by rewrite Hf, Hd. Qed.

(** What [Up] has done when it reaches the launch of "vagrant up". *)
Lemma Up_cases E v content w :
  content ≠ "" →
  ∃ w1 : world,
    (vagrantfileExists E v w = None
     ∧ w1 = log_Printf ("Using existing Vagrantfile at " +:+ VagrantfilePath v) w
     ∨ vagrantfileExists E v w ≠ None
       ∧ ∃ r, ioutil_WriteFile E (vagrantfile E v) content w = (w1, r)
              ∧ (r = None → w1 = set_files (<[vagrantfile E v := content]> (files w)) w)
              ∧ (r ≠ None → w1 = w ∧ Up E v content w = (w, (None, r))))
    ∧ (Up E v content w = (w1, (None, snd (snd (Up E v content w))))
       ∧ snd (snd (Up E v content w)) ≠ None
       ∨ Up E v content w
         = (set_spawned (spawned w1 ++ [(VagrantfilePath v, ["vagrant"; "up"])]) w1,
            (Some (Up_feed (exec_Command E (VagrantfilePath v) ["vagrant"; "up"])),
             None))).
Proof.
  intros Hcontent. unfold Up.
  destruct (String.eqb_spec content "") as [|_]; [done|].
  destruct (vagrantfileExists E v w) as [e0|] eqn:Hex.
  - unfold ioutil_WriteFile. destruct (write_fault E _) as [e|] eqn:Hwf.
    + exists w. split; [|by left].
      right. split; [done|]. exists (Some e). by repeat split.
    + eexists. split.
      * right. split; [done|]. exists None. by repeat split.
      * unfold createCommand, behaviour, Cmd_Start. simpl.
        destruct (stdoutpipe_err _); [by left|].
        destruct (stderrpipe_err _); [by left|].
        destruct (start_err _); [by left|]. by right.
  - eexists. split; [by left|].
    unfold createCommand, behaviour, Cmd_Start. simpl.
    destruct (stdoutpipe_err _); [by left|].
    destruct (stderrpipe_err _); [by left|].
    destruct (start_err _); [by left|]. by right.
Qed.

(** X7. [Up] returns a channel exactly when it returns no error.  With the
    channel, exactly one subprocess was started, "vagrant up" in the
    session's directory (without "--machine-readable"), and the channel is
    the one of that process; with an error, no subprocess was started. *)
Theorem Up_channel_iff_no_error (E : Env) (v : Vagrant) (content : string)
    (w : world) :
  (fst (snd (Up E v content w)) = None ↔ snd (snd (Up E v content w)) ≠ None)
  ∧ (snd (snd (Up E v content w)) = None →
     spawned (fst (Up E v content w))
       = spawned w ++ [(VagrantfilePath v, ["vagrant"; "up"])]
     ∧ fst (snd (Up E v content w))
       = Some (Up_feed (exec_Command E (VagrantfilePath v) ["vagrant"; "up"])))
  ∧ (snd (snd (Up E v content w)) ≠ None →
     spawned (fst (Up E v content w)) = spawned w).
Proof.
  destruct (String.eqb_spec content "") as [->|Hcontent]; [done|].
  destruct (Up_cases E v content w Hcontent) as (w1 & Hprep & Hlaunch).
  assert (Hsp : spawned w1 = spawned w).
  { destruct Hprep as [[_ ->]|(_ & r & _ & Hok & Hfail)]; [done|].
    destruct r; [by destruct Hfail as [-> _] | by rewrite Hok]. }
  destruct Hlaunch as [[Hup Herr]|Hup].
  - rewrite Hup in *. simpl in *. by rewrite Hsp.
  - rewrite Hup. simpl. by rewrite Hsp.
Qed.

Lemma Up_files_kept E v content w :
  vagrantfileExists E v w = None →
  files (fst (Up E v content w)) = files w.
Proof.
  intros Hex.
  destruct (String.eqb_spec content "") as [->|Hcontent]; [done|].
  destruct (Up_cases E v content w Hcontent) as (w1 & Hprep & Hlaunch).
  assert (Hf : files w1 = files w).
  { destruct Hprep as [[_ ->]|[Hne _]]; [done|]. by rewrite Hex in Hne. }
  destruct Hlaunch as [[Hup _]|Hup]; by rewrite Hup.
Qed.

(** X8. The write of [Up] is done once.  After a call of [Up] that returned
    a channel, [vagrantfileExists] reports the Vagrantfile present, so
    [Status] and [Destroy] pass their guard, and no later call of [Up],
    whatever its content, changes a file. *)
Theorem Up_writes_once (E : Env) (v : Vagrant) (content : string) (w : world) :
  snd (snd (Up E v content w)) = None →
  vagrantfileExists E v (fst (Up E v content w)) = None
  ∧ ∀ content', files (fst (Up E v content' (fst (Up E v content w))))
                = files (fst (Up E v content w)).
Proof.
  intros Hok.
  assert (Hex : vagrantfileExists E v (fst (Up E v content w)) = None).
  { destruct (String.eqb_spec content "") as [->|Hcontent]; [done|].
    destruct (Up_cases E v content w Hcontent) as (w1 & Hprep & Hlaunch).
    destruct Hlaunch as [[_ Herr]|Hup]; [done|]. rewrite Hup. simpl.
    rewrite (vagrantfileExists_disk E v w1) by done.
    destruct Hprep as [[Hnone ->]|(Hsome & r & _ & Hwritten & Hfail)].
    - by rewrite (vagrantfileExists_disk E v w).
    - destruct r as [e|].
      + destruct Hfail as [_ Hup']; [done|]. by rewrite Hup' in Hok.
      + rewrite Hwritten by done.
        unfold vagrantfileExists, os_Stat in *.
        destruct (stat_fault E (vagrantfile E v)); [done|]. simpl.
        by rewrite lookup_insert_eq. }
  split; [done|]. intros content'. by apply Up_files_kept.
Qed.

Lemma Up_writes_once_witness :
  files (fst (Up (demo_env (demo_process ([], None) ([], None) None))
                demo_session "second"
                (fst (Up (demo_env (demo_process ([], None) ([], None) None))
                        demo_session "first" empty_world))))
  = {[ "/home/u/.koding-boxes/box/Vagrantfile" := "first" ]}.
Proof.
  etransitivity.
  - apply (Up_writes_once
             (demo_env (demo_process ([], None) ([], None) None))
             demo_session "first" empty_world).
    reflexivity.
  - reflexivity.
Defined.

(** X9. [vagrantfileExists] takes every failure of [os.Stat] other than
    absence for presence.  When [os.Stat] fails for such a reason, say a
    directory that may not be searched, [Up] writes no Vagrantfile even if
    there is none, and [Status] and [Destroy] do not stop at their guard:
    they go on to their subprocess. *)
Theorem stat_failure_counts_as_present (E : Env) (v : Vagrant) (w : world)
    (msg : string) :
  stat_fault E (vagrantfile E v) = Some msg →
  vagrantfileExists E v w = None
  ∧ (∀ content, files (fst (Up E v content w)) = files w)
  ∧ (start_err (exec_Command E (VagrantfilePath v)
                  ["vagrant"; "status"; "--machine-readable"]) = None →
     spawned (fst (Vagrant_Status E v w))
     = spawned w ++ [(VagrantfilePath v,
                      ["vagrant"; "status"; "--machine-readable"])])
  ∧ (stdoutpipe_err (exec_Command E (VagrantfilePath v)
                       ["vagrant"; "destroy"; "--force"]) = None →
     start_err (exec_Command E (VagrantfilePath v)
                  ["vagrant"; "destroy"; "--force"]) = None →
     spawned (fst (Destroy E v w))
     = spawned w ++ [(VagrantfilePath v, ["vagrant"; "destroy"; "--force"])]).
Proof.
  intros Hfault.
  assert (Hex : vagrantfileExists E v w = None)
    by (unfold vagrantfileExists, os_Stat; by rewrite Hfault).
  split; [done|]. split; [|split].
  - intros content. by apply Up_files_kept.
  - intros Hstart. unfold Vagrant_Status. rewrite Hex, runCommand_world.
    simpl. rewrite Hstart.
    destruct (wait_err _); [done|].
    destruct (parseRecords E _) as [records [e|]]; [done|].
    destruct (parseData records "state") as [status [e|]]; [done|].
    by destruct (toStatus status).
  - intros Hpipe Hstart. unfold Destroy. rewrite Hex.
    unfold createCommand, behaviour, Cmd_Start. simpl.
    rewrite Hpipe. unfold behaviour. simpl. rewrite Hstart. simpl.
    unfold wait_and_log.
    by destruct (wait_err _).
Qed.

Lemma stat_failure_counts_as_present_witness :
  vagrantfileExists (denied_env (demo_process ([], None) ([], None) None))
    demo_session empty_world = None
  ∧ files (fst (Up (denied_env (demo_process ([], None) ([], None) None))
                  demo_session "config" empty_world)) = ∅.
Proof.
  destruct (stat_failure_counts_as_present
              (denied_env (demo_process ([], None) ([], None) None))
              demo_session empty_world "permission denied")
    as (Hex & Hup & _).
  - reflexivity.
  - split; [exact Hex | apply (Hup "config")].
Defined.

(** X10. [Destroy] returns a reader exactly when it returns no error.
    With the reader, exactly one subprocess was started,
    "vagrant destroy --force" in the session's directory, and a line is
    logged exactly when that process fails; with an error, nothing was
    started.  In no case does [Destroy] change a file or a directory. *)
Theorem Destroy_reader_iff_no_error (E : Env) (v : Vagrant) (w : world) :
  let p := exec_Command E (VagrantfilePath v) ["vagrant"; "destroy"; "--force"] in
  (fst (snd (Destroy E v w)) = None ↔ snd (snd (Destroy E v w)) ≠ None)
  ∧ files (fst (Destroy E v w)) = files w
  ∧ dirs (fst (Destroy E v w)) = dirs w
  ∧ (snd (snd (Destroy E v w)) = None →
     spawned (fst (Destroy E v w))
       = spawned w ++ [(VagrantfilePath v, ["vagrant"; "destroy"; "--force"])]
     ∧ fst (snd (Destroy E v w)) = Some (stdout_text p)
     ∧ (logged (fst (Destroy E v w)) = logged w ↔ wait_err p = None))
  ∧ (snd (snd (Destroy E v w)) ≠ None → fst (Destroy E v w) = w).
Proof.
  intros p. unfold Destroy.
  destruct (vagrantfileExists E v w); [done|].
  unfold createCommand, Cmd_Start, behaviour. simpl. fold p.
  destruct (stdoutpipe_err p); [done|].
  destruct (start_err p); [done|]. simpl.
  unfold wait_and_log. destruct (wait_err p) as [e|]; simpl.
  - repeat split; try done. intros Hlog.
    apply (f_equal length) in Hlog. rewrite length_app in Hlog.
    simpl in Hlog. lia.
  - repeat split; done.
Qed.

(** X11. [NewVagrant] with a name that is not empty returns a session
    exactly when it returns no error.  The session's directory is
    ".koding-boxes/<name>" under the home of the current user and has been
    created; no file is touched and no subprocess started. *)
Theorem NewVagrant_named_session (E : Env) (name : string) (w : world) :
  name ≠ "" →
  (fst (snd (NewVagrant E name w)) = None
   ↔ snd (snd (NewVagrant E name w)) ≠ None)
  ∧ files (fst (NewVagrant E name w)) = files w
  ∧ spawned (fst (NewVagrant E name w)) = spawned w
  ∧ ∀ session, fst (snd (NewVagrant E name w)) = Some session →
      ∃ home, user_Current E = inl home
        ∧ VagrantfilePath session
          = filepath_Join E (filepath_Join E home ".koding-boxes") name
        ∧ VagrantfilePath session ∈ dirs (fst (NewVagrant E name w)).
Proof.
  intros Hname. unfold NewVagrant.
  destruct (user_Current E) as [home|e]; [|done].
  destruct (String.eqb_spec name "") as [|_]; [done|].
  unfold os_MkdirAll. destruct (mkdir_fault E _); [done|]. simpl.
  repeat split; try done.
  intros session [= <-]. exists home. repeat split. simpl. set_solver.
Qed.

Lemma NewVagrant_named_session_witness :
  ∃ session,
    fst (snd (NewVagrant (demo_env (demo_process ([], None) ([], None) None))
                "box" empty_world)) = Some session
    ∧ VagrantfilePath session = "/home/u/.koding-boxes/box".
Proof.
  destruct (NewVagrant_named_session
              (demo_env (demo_process ([], None) ([], None) None)) "box"
              empty_world) as (_ & _ & _ & Hsession).
  - discriminate.
  - exists (mkVagrant "/home/u/.koding-boxes/box"). split; [reflexivity|].
    destruct (Hsession (mkVagrant "/home/u/.koding-boxes/box")) as (home & Hu & Hp & _).
    + reflexivity.
    + reflexivity.
Defined.


(** ** More on the channel of [Up] *)

Lemma Up_feed_events_of (p : process) :
  Up_feed p = events_of (merged_yield p) ++ wait_events p.
Proof. unfold Up_feed, events_of, wait_events. by rewrite app_assoc. Qed.

Lemma error_events_of_nil (y : yield) :
  error_events (events_of y) = [] ↔ snd y = None.
Proof.
  destruct y as [ls e]. unfold events_of, error_events. simpl.
  rewrite filter_app.
  assert (filter (λ ev, is_line ev = false) (map line_event ls) = []) as ->.
  { induction ls as [|l ls IH]; [done|]. simpl. apply IH. }
  by destruct e.
Qed.

(** X12. The channel of [Up] (vagrant.go) delivers the lines of its one
    scanner in order; it carries no error event exactly when the scanner
    ended without error and the process exited with status 0; there are at
    most two error events; and when the process failed, the last event is
    the error of [cmd.Wait()]. *)
Theorem Up_feed_events (p : process) :
  line_events (Up_feed p) = map line_event (fst (merged_yield p))
  ∧ (error_events (Up_feed p) = []
     ↔ snd (merged_yield p) = None ∧ wait_err p = None)
  ∧ length (error_events (Up_feed p)) ≤ 2
  ∧ (∀ e, wait_err p = Some e → last (Up_feed p) = Some (error_event e)).
Proof.
  rewrite Up_feed_events_of. split; [|split; [|split]].
  - unfold line_events. rewrite filter_app.
    fold (line_events (events_of (merged_yield p))).
    fold (line_events (wait_events p)).
    by rewrite line_events_of, line_events_wait, app_nil_r.
  - unfold error_events. rewrite filter_app.
    fold (error_events (events_of (merged_yield p))).
    split.
    + intros Hnil. apply app_eq_nil in Hnil as [Hscan Hwait].
      apply error_events_of_nil in Hscan. split; [done|].
      unfold wait_events in Hwait. by destruct (wait_err p).
    + intros [Hscan Hwait]. apply error_events_of_nil in Hscan.
      rewrite Hscan. unfold wait_events. by rewrite Hwait.
  - unfold error_events. rewrite filter_app, length_app.
    pose proof (error_events_of (merged_yield p)) as Hle.
    unfold error_events in Hle.
    pose proof (length_filter (λ ev, is_line ev = false) (wait_events p)) as Hw.
    assert (length (wait_events p) ≤ 1)
      by (unfold wait_events; destruct (wait_err p); simpl; lia).
    lia.
  - intros e He. unfold wait_events. rewrite He. apply last_snoc.
Qed.

(** ** More on [run] and [start] *)

(** X13. [run] returns a nil error exactly when the subprocess could be
    started and exited with status 0, and then the string is the combined
    output; with an error the string is empty.  The callbacks see the very
    result that is returned: [calls] grows by the calls of [done] for the
    returned error.  When the subprocess cannot be started, nothing is
    recorded as started and the start error is returned as it is. *)
Theorem run_output_iff_success (E : Env) (c : command) (args : list string)
    (w : world) :
  let p := behaviour E (init c args) in
  (snd (snd (run E c args w)) = None
   ↔ start_err p = None ∧ wait_err p = None)
  ∧ (snd (snd (run E c args w)) = None → fst (snd (run E c args w)) = combined p)
  ∧ (snd (snd (run E c args w)) ≠ None → fst (snd (run E c args w)) = "")
  ∧ calls (fst (run E c args w))
    = calls w ++ done_calls c (snd (snd (run E c args w)))
  ∧ (start_err p ≠ None →
     spawned (fst (run E c args w)) = spawned w
     ∧ snd (snd (run E c args w)) = start_err p).
Proof.
  intros p. unfold run, Cmd_CombinedOutput, Cmd_Start. fold p.
  destruct (start_err p) as [e|].
  - rewrite done_world. simpl. split_and!; try done.
    split; [done | by intros [? _]].
  - destruct (wait_err p) as [e|]; rewrite done_world; simpl;
      split_and!; try done.
    split; [done | by intros [_ ?]].
Qed.

(** X14. [start] returns a channel exactly when it returns no error.
    With an error (a pipe could not be made or the subprocess not started)
    no subprocess is recorded and [done] has been called with the error
    returned; with a channel the subprocess has been started, no callback
    has been called yet, and the goroutines are at their first
    statements. *)
Theorem start_channel_iff_no_error (E : Env) (c : command)
    (args : list string) (w : world) :
  (fst (snd (start E c args w)) = None
   ↔ snd (snd (start E c args w)) ≠ None)
  ∧ (snd (snd (start E c args w)) ≠ None →
     spawned (fst (start E c args w)) = spawned w
     ∧ calls (fst (start E c args w))
       = calls w ++ done_calls c (snd (snd (start E c args w))))
  ∧ (∀ s0, fst (snd (start E c args w)) = Some s0 →
     s0 = start_state (fst (start E c args w))
     ∧ calls (fst (start E c args w)) = calls w
     ∧ spawned (fst (start E c args w))
       = spawned w ++ [(cwd c, "vagrant" :: args)]).
Proof.
  destruct (start E c args w) as [w1 [[s0|] r]] eqn:Hstart; simpl.
  - apply start_started in Hstart as (-> & -> & Hc & Hs).
    split_and!; try done. intros s [= <-]. done.
  - apply start_failed in Hstart as ([e ->] & Hc & Hs).
    split_and!; done.
Qed.

(** ** More on the goroutines of [start] *)

Lemma reader_set_reader_same i pc s : reader i (set_reader i pc s) = pc.
Proof. by destruct i. Qed.

Lemma step_panic_closed c p k w t s s' :
  inv c p w s → gstep c p k t s = Some s' →
  panicked s' = true → closed s' = true.
Proof.
  intros Hinv. unfold gstep. destruct (panicked s) eqn:Hpan; [done|].
  destruct t as [i|].
  - unfold reader_step, send.
    destruct (reader i s) as [|[|l todo] [e|]|] eqn:Hr.
    + intros [= <-]. autorewrite with gframe. simpl. congruence.
    + destruct (closed s) eqn:Hcl; [by intros [= <-]|].
      destruct (ready k s); [|done]. intros [= <-].
      autorewrite with gframe. simpl. congruence.
    + intros [= <-]. autorewrite with gframe.
      pose proof (inv_wg _ _ _ _ Hinv) as Hwg.
      assert (∃ n, wg s = S n) as [n Hn].
      { destruct i; simpl in Hr; rewrite Hr in Hwg; simpl in Hwg;
          destruct (wg s); eauto; lia. }
      unfold wg_Done. rewrite Hn. simpl. congruence.
    + destruct (closed s) eqn:Hcl; [by intros [= <-]|].
      destruct (ready k s); [|done]. intros [= <-].
      autorewrite with gframe. simpl. congruence.
    + destruct (closed s) eqn:Hcl; [by intros [= <-]|].
      destruct (ready k s); [|done]. intros [= <-].
      autorewrite with gframe. simpl. congruence.
    + done.
  - pose proof (inv_waiter _ _ _ _ Hinv) as Hw. unfold waiter_inv in Hw.
    unfold waiter_step, send. destruct (waiter s) eqn:Hwt.
    + destruct (wg s =? 0); [|done]. intros [= <-]. simpl. congruence.
    + intros [= <-]. simpl. congruence.
    + destruct Hw as (_ & _ & -> & _). destruct (ready k s); [|done].
      intros [= <-]. simpl. congruence.
    + by intros [= <-].
    + intros [= <-]. simpl. congruence.
    + done.
Qed.

(** X15. The WaitGroup of [start] counts the output goroutines that are
    inside their loop, so it is at most 2 and [wg.Done()] never drives it
    below zero; the channel is closed only after [cmd.Wait()] has returned;
    and the one panic the goroutines can raise is a send on the closed
    channel, which needs the race: [wg.Wait()] returned while an output
    goroutine was unfinished. *)
Theorem panic_only_after_race (c : command) (p : process) (k : consumer)
    (w : world) (s : gstate) :
  reachable c p k w s →
  wg s = scanning (r_out s) + scanning (r_err s)
  ∧ wg s ≤ 2
  ∧ (closed s = true → reaped s = true)
  ∧ (panicked s = true → raced s = true ∧ closed s = true).
Proof.
  intros Hreach. pose proof (reachable_inv _ _ _ _ _ Hreach) as Hinv.
  pose proof (inv_wg _ _ _ _ Hinv) as Hwg.
  split_and!.
  - done.
  - rewrite Hwg. destruct (r_out s), (r_err s); simpl; lia.
  - intros Hcl. pose proof (inv_waiter _ _ _ _ Hinv) as Hw.
    unfold waiter_inv in Hw.
    destruct (waiter s); destruct_and?; congruence.
  - intros Hpan. split.
    + destruct (raced s) eqn:Hrc; [done|].
      by rewrite (inv_no_panic _ _ _ _ Hinv Hrc) in Hpan.
    + clear Hinv Hwg. induction Hreach as [|s t s' Hreach IH Hstep]; [done|].
      eapply step_panic_closed; eauto. by eapply reachable_inv.
Qed.

Lemma panic_only_after_race_witness :
  ∃ s, reachable both_callbacks one_line Drain empty_world s
       ∧ panicked s = true ∧ raced s = true ∧ closed s = true ∧ wg s = 1.
Proof.
  pose (sched := [TWaiter; TWaiter; TWaiter; TReader Stdout; TReader Stdout]).
  destruct (run_schedule both_callbacks one_line Drain sched
              (start_state empty_world)) as [s|] eqn:Hrun; [|done].
  assert (Hreach : reachable both_callbacks one_line Drain empty_world s)
    by (eapply run_schedule_reachable; [apply reach_start | exact Hrun]).
  destruct (panic_only_after_race both_callbacks one_line Drain empty_world s
              Hreach) as (_ & _ & _ & Hpanic).
  exists s. split; [done|].
  assert (Hpan : panicked s = true) by (by injection Hrun as <-).
  destruct (Hpanic Hpan) as [Hrc Hcl].
  split; [done|]. split; [done|]. split; [done|]. by injection Hrun as <-.
Defined.

Lemma step_received c p k t s s' :
  gstep c p k t s = Some s' →
  received s' = received s
  ∨ (ready k s = true ∧ ∃ x, received s' = received s ++ [x]).
Proof.
  unfold gstep. destruct (panicked s); [done|]. destruct t as [i|].
  - unfold reader_step, send, wg_Done.
    destruct (reader i s) as [|[|l todo] [e|]|];
      repeat (match goal with
              | |- context [if ?b then _ else _] => destruct b eqn:?
              | |- context [match wg s with _ => _ end] => destruct (wg s)
              end);
      intros [= <-]; autorewrite with gframe; simpl; eauto.
  - unfold waiter_step, send.
    destruct (waiter s);
      repeat (match goal with
              | |- context [if ?b then _ else _] => destruct b eqn:?
              end);
      intros [= <-]; simpl; eauto.
Qed.

Lemma received_within_budget c p n w s :
  reachable c p (Take n) w s → length (received s) ≤ n.
Proof.
  induction 1 as [|s t s' _ IH Hstep]; [simpl; lia|].
  destruct (step_received _ _ _ _ _ _ Hstep) as [->|(Hready & x & ->)]; [done|].
  simpl in Hready. apply Nat.ltb_lt in Hready.
  rewrite length_app. simpl. lia.
Qed.

Lemma length_by_sender (l : list (sender * CommandOutput)) :
  length l
  = length (sent_by (FromReader Stdout) l)
    + length (sent_by (FromReader Stderr) l)
    + length (sent_by FromWait l).
Proof.
  induction l as [|[from ev] l IH]; [done|].
  unfold sent_by in *. rewrite !(filter_cons _ (from, ev)). simpl.
  destruct from as [[]|];
    repeat (first [rewrite decide_True by done | rewrite decide_False by done]);
    simpl; lia.
Qed.

(** X16. The channel is unbuffered, so the consumer holds the goroutines
    back: a consumer that stops after [n] events has received at most [n];
    and if that is fewer than the process gives rise to, then (without the
    race) the channel is never closed and no callback is ever called. *)
Theorem early_consumer_blocks_close (c : command) (p : process) (n : nat)
    (w : world) (s : gstate) :
  reachable c p (Take n) w s →
  length (received s) ≤ n
  ∧ (raced s = false → n < total_events p →
     closed s = false ∧ calls (gworld s) = calls w).
Proof.
  intros Hreach. pose proof (received_within_budget _ _ _ _ _ Hreach) as Hle.
  split; [done|]. intros Hrc Hfew.
  pose proof (reachable_inv _ _ _ _ _ Hreach) as Hinv.
  assert (Hopen : closed s = false).
  { destruct (closed s) eqn:Hcl; [|done]. exfalso.
    destruct (orderly_closed_all_sent _ _ _ _ Hinv Hrc Hcl) as [Hall Hwait].
    rewrite length_by_sender, (Hall Stdout), (Hall Stderr), Hwait in Hle.
    unfold total_events in Hfew. simpl in Hle. lia. }
  split; [done|].
  pose proof (inv_waiter _ _ _ _ Hinv) as Hw. unfold waiter_inv in Hw.
  destruct (waiter s); destruct_and?; congruence.
Qed.

Lemma early_consumer_blocks_close_witness :
  ∃ s, reachable both_callbacks line_then_success (Take 1) empty_world s
       ∧ stuck both_callbacks line_then_success (Take 1) s
       ∧ seen s = [line_event "a"]
       ∧ closed s = false ∧ calls (gworld s) = [].
Proof.
  pose (sched := [TReader Stdout; TReader Stderr; TReader Stdout;
                  TReader Stdout]).
  destruct (run_schedule both_callbacks line_then_success (Take 1) sched
              (start_state empty_world)) as [s|] eqn:Hrun; [|done].
  assert (Hreach : reachable both_callbacks line_then_success (Take 1)
                     empty_world s)
    by (eapply run_schedule_reachable; [apply reach_start | exact Hrun]).
  destruct (early_consumer_blocks_close both_callbacks line_then_success 1
              empty_world s Hreach) as [_ Hblocked].
  destruct Hblocked as [Hopen Hcalls].
  - by injection Hrun as <-.
  - vm_compute. lia.
  - exists s. split; [done|]. split; [|split; [|done]].
    + injection Hrun as <-. by intros [[]|].
    + by injection Hrun as <-.
Defined.

Lemma run_schedule_weight c p k sched s s' :
  run_schedule c p k sched s = Some s' →
  length sched + weight p s' ≤ weight p s.
Proof.
  revert s. induction sched as [|t sched IH]; intros s; simpl.
  - intros [= <-]. lia.
  - destruct (gstep c p k t s) as [s1|] eqn:Hstep; [|done].
    intros Hrun. apply IH in Hrun. apply weight_decreases in Hstep. lia.
Qed.

(** X17. The goroutines of [start] stop: whatever the scheduler and the
    consumer do, an execution takes at most 2 N + 2 M + 12 steps for a
    process whose scanners yield N lines on stdout and M on stderr. *)
Theorem start_steps_bounded (c : command) (p : process) (k : consumer)
    (w : world) (sched : list thread) (s : gstate) :
  run_schedule c p k sched (start_state w) = Some s →
  length sched
  ≤ 2 * length (fst (stdout_yield p)) + 2 * length (fst (stderr_yield p)) + 12.
Proof.
  intros Hrun. apply (run_schedule_weight _ p) in Hrun.
  unfold weight in Hrun at 2. simpl in Hrun. lia.
Qed.

Lemma start_steps_bounded_witness :
  length [TReader Stdout; TReader Stderr; TReader Stdout; TReader Stderr;
          TReader Stdout; TReader Stderr; TWaiter; TWaiter; TWaiter; TWaiter]
  ≤ 2 * length (fst (stdout_yield line_then_success))
    + 2 * length (fst (stderr_yield line_then_success)) + 12.
Proof.
  eapply (start_steps_bounded both_callbacks line_then_success Drain
            empty_world).
  vm_compute. reflexivity.
Defined.










(** ** The two revisions of [Up] *)

(** X20. The first revision of [Up] and the one of vagrant.go treat the
    disk alike: after either the files and directories are the same.  When
    the stderr pipe of the later revision can be made, they also agree on
    the subprocess started and on the error returned, and the one returns
    its reader exactly when the other returns its channel. *)
Theorem Up_revisions_agree (E : Env) (v : Vagrant) (content : string)
    (w : world) :
  files (fst (Up_v0 E v content w)) = files (fst (Up E v content w))
  ∧ dirs (fst (Up_v0 E v content w)) = dirs (fst (Up E v content w))
  ∧ (stderrpipe_err (exec_Command E (VagrantfilePath v) ["vagrant"; "up"])
     = None →
     spawned (fst (Up_v0 E v content w)) = spawned (fst (Up E v content w))
     ∧ snd (snd (Up_v0 E v content w)) = snd (snd (Up E v content w))
     ∧ (fst (snd (Up_v0 E v content w)) = None
        ↔ fst (snd (Up E v content w)) = None)).
Proof.
  unfold Up_v0, Up. destruct (String.eqb content ""); [done|].
  destruct (match vagrantfileExists E v w with
            | Some _ => ioutil_WriteFile E (vagrantfile E v) content w
            | None => _
            end) as [w1 [e|]]; [done|].
  unfold createCommand, Cmd_Start, behaviour. simpl.
  destruct (stdoutpipe_err _); [done|].
  destruct (stderrpipe_err _) as [e|].
  - split_and!; try done;
      destruct (start_err _); simpl; try done;
      unfold wait_and_log; by destruct (wait_err _).
  - destruct (start_err _); simpl; [done|].
    unfold wait_and_log. by destruct (wait_err _).
Qed.
